(** * Shallow embedding of the 1C synchronisation engine of tradeos-week-4-integration

    Covered sources:
    - [src/app/services/onec_client.py]: [OneCClient._request] (retry loop and
      error classification), [OneCClient.get_nomenclature];
    - [src/app/tasks/sync_tasks.py]: [sync_nomenclature] (integration counters),
      [_sync_integration_nomenclature] (per-record loop), [_should_update_product];
    - [src/app/services/websocket_manager.py]: [ConnectionManager] registries,
      [connect], [disconnect], [_broadcast_internal];
    - [src/app/api/v1/endpoints/websocket.py]: [_handle_subscribe],
      [_handle_unsubscribe]. *)

From Stdlib Require Import ZArith Lia Ascii.
From stdpp Require Import base gmap sets list strings pretty.

Open Scope Z_scope.

(* ===================================================================== *)
(** ** OneCClient._request *)
(* ===================================================================== *)

Module OneCClient.

(** The exception classes of onec_client.py.  [OneCConnectionError],
    [OneCAuthError] and [OneCResponseError] are subclasses of [OneCApiError]. *)
Inductive onec_error :=
  | OneCApiError
  | OneCConnectionError
  | OneCAuthError
  | OneCResponseError (status_code : Z).

(** The body of a response as [response.json()] sees it: empty ([not
    response.content]), valid JSON, or non-empty and not JSON (then
    [response.json()] raises). *)
Inductive response_body :=
  | EmptyBody
  | JsonBody
  | NonJsonBody.

(** What one call of [self._client.request(...)] produces:
    an HTTP response with a status code and a body, an httpx transport
    exception ([TimeoutException], [ConnectError], [NetworkError]) or any
    other exception. *)
Inductive attempt_outcome :=
  | HttpResponse (status_code : Z) (body : response_body)
  | TransportFailure
  | OtherFailure.

(** Exceptions that can leave the body of the [try] block (lines 140-172). *)
Inductive py_exc :=
  | ExcTransport
  | ExcOther
  | ExcOneC (e : onec_error).

(** Observable events of one call: an HTTP attempt (counted from 0) and an
    [asyncio.sleep(wait_time)]. *)
Inductive event :=
  | Attempt (k : nat)
  | Sleep (seconds : Z).

(** Result of [_request]: a parsed body, the implicit [None] returned when
    the [for] loop runs zero times, or a raised [OneCApiError] family error. *)
Inductive request_result :=
  | Returned
  | ReturnedNone
  | Raised (e : onec_error).

(** The body of the [try] block: the status check of lines 150-167, then
    lines 170-172, where [response.json()] raises on a non-empty body that
    is not JSON.  In the status check the bare [except:] of lines 152-156
    absorbs a failing [response.json()]; the one of line 166 (JSON content
    type, non-JSON body) would raise a decode error in place of
    [OneCResponseError], which the [except Exception] clause treats alike,
    so it is kept as [OneCResponseError]. *)
Definition try_body (o : attempt_outcome) : option py_exc :=
  match o with
  | TransportFailure => Some ExcTransport
  | OtherFailure => Some ExcOther
  | HttpResponse sc body =>
      if Z.leb 400 sc then
        if Z.eqb sc 401 then Some (ExcOneC OneCAuthError)
        else if existsb (Z.eqb sc) [502; 503; 504] then Some (ExcOneC OneCConnectionError)
        else Some (ExcOneC (OneCResponseError sc))
      else
        match body with
        | NonJsonBody => Some ExcOther
        | _ => None
        end
  end.

(** [for attempt in range(self.max_retries)]: [attempt] is the current
    attempt, [fuel] the attempts still to run in the range, [server k] the
    outcome of attempt [k].  The [except (httpx.TimeoutException,
    httpx.ConnectError, httpx.NetworkError)] clause retries; the following
    [except Exception] clause catches everything else raised in the body,
    including the [OneCAuthError], [OneCConnectionError] and
    [OneCResponseError] raised by the status check. *)
Fixpoint request_loop (max_retries : nat) (server : nat -> attempt_outcome)
    (attempt fuel : nat) : request_result * list event :=
  match fuel with
  | O => (ReturnedNone, [])
  | S fuel' =>
      match try_body (server attempt) with
      | None => (Returned, [Attempt attempt])
      | Some ExcTransport =>
          if Nat.eqb attempt (max_retries - 1) then
            (Raised OneCConnectionError, [Attempt attempt])
          else
            let wait_time := 2 ^ Z.of_nat attempt in
            let '(r, tr) := request_loop max_retries server (S attempt) fuel' in
            (r, Attempt attempt :: Sleep wait_time :: tr)
      | Some _ => (Raised OneCApiError, [Attempt attempt])
      end
  end.

Definition _request (max_retries : nat) (server : nat -> attempt_outcome)
    : request_result * list event :=
  request_loop max_retries server 0 max_retries.

(** Number of HTTP attempts in a trace. *)
Definition is_attempt (e : event) : bool :=
  match e with Attempt _ => true | Sleep _ => false end.

Definition attempts (tr : list event) : nat := length (List.filter is_attempt tr).

(** The trace of [m] attempts starting at attempt [a], all failing at
    transport level: each attempt but the last is followed by a sleep of
    [2^attempt] seconds. *)
Fixpoint backoff_from (a m : nat) : list event :=
  match m with
  | O => []
  | S O => [Attempt a]
  | S m' => Attempt a :: Sleep (2 ^ Z.of_nat a) :: backoff_from (S a) m'
  end.

(** Seconds slept in a trace. *)
Definition total_sleep (tr : list event) : Z :=
  fold_right (fun e acc => match e with Sleep sec => sec + acc | Attempt _ => acc end) 0 tr.

(** What [_request] ends with when the first non-transport outcome is [o]:
    the parsed body, or the [OneCApiError] raised by [except Exception]. *)
Definition outcome_result (o : attempt_outcome) : request_result :=
  match try_body o with
  | None => Returned
  | Some _ => Raised OneCApiError
  end.

(** [OneCClient.health_check]: [True] when [_request("GET", "/hs/api/health")]
    returns (a body or the implicit [None]), [False] when it raises; every
    error [_request] raises belongs to the [OneCApiError] family, which the
    [except OneCApiError] clause catches. *)
Definition health_check (max_retries : nat) (server : nat -> attempt_outcome) : bool :=
  match fst (_request max_retries server) with
  | Raised _ => false
  | _ => true
  end.

(** [str.lstrip('/')]. *)
Fixpoint lstrip_slash (s : string) : string :=
  match s with
  | EmptyString => EmptyString
  | String c s' => if Ascii.eqb c "/"%char then lstrip_slash s' else s
  end.

(** [str.rstrip('/')]. *)
Fixpoint rstrip_slash (s : string) : string :=
  match s with
  | EmptyString => EmptyString
  | String c s' =>
      match rstrip_slash s' with
      | EmptyString => if Ascii.eqb c "/"%char then EmptyString else String c EmptyString
      | r => String c r
      end
  end.

(** The URL of a request: [self.base_url = base_url.rstrip('/')] in
    [__init__], then [url = f"{self.base_url}/{endpoint.lstrip('/')}"] in
    [_request]. *)
Definition request_url (base_url endpoint : string) : string :=
  rstrip_slash base_url +:+ "/" +:+ lstrip_slash endpoint.

(** A run of [n] slashes. *)
Fixpoint slashes (n : nat) : string :=
  match n with
  | O => EmptyString
  | S n' => String "/"%char (slashes n')
  end.

(** Python truthiness of an optional string attribute. *)
Definition truthy (o : option string) : bool :=
  match o with
  | Some v => negb (String.eqb v "")
  | None => false
  end.

(** The headers [_get_headers] always sends. *)
Definition fixed_headers : list (string * string) :=
  [("User-Agent", "TradeOS-Integration/1.0");
   ("Accept", "application/json");
   ("Content-Type", "application/json")].

(** [OneCClient._get_headers], as the ordered list of the dictionary's items.
    [b64] stands for [base64.b64encode(x.encode()).decode()]. *)
Definition _get_headers (b64 : string -> string)
    (api_key username password : option string) : list (string * string) :=
  let headers := fixed_headers in
  if truthy api_key then headers ++ [("X-API-Key", default "" api_key)]
  else if truthy username && truthy password then
    headers ++ [("Authorization",
                 "Basic " +:+ b64 (default "" username +:+ ":" +:+ default "" password))]
  else headers.

End OneCClient.

(* ===================================================================== *)
(** ** Nomenclature synchronisation (sync_tasks.py) *)
(* ===================================================================== *)

Module Sync.

(** [OneCProduct] as built by [OneCClient.get_nomenclature]; prices and
    quantities are only compared for equality, so they are kept as [Z].
    The fields that only feed [external_data] are omitted. *)
Record OneCProduct := {
  op_id : string;
  op_code : string;
  op_name : string;
  op_full_name : option string;
  op_price : option Z;
  op_quantity : option Z;
  op_category : option string
}.

(** One response of [GET /hs/api/nomenclature]. *)
Record Page := {
  items : list OneCProduct;
  has_more : bool
}.

(** The remote endpoint: [updated_since], [limit], [offset] to a page, or
    the error [_request] raised. *)
Definition server := option Z -> nat -> nat -> OneCClient.onec_error + Page.

(** [OneCClient.get_nomenclature]: one request, the [items] are returned and
    [has_more] is dropped; an [OneCApiError] is re-raised. *)
Definition get_nomenclature (srv : server) (updated_since : option Z)
    (limit offset : nat) : OneCClient.onec_error + list OneCProduct :=
  match srv updated_since limit offset with
  | inl e => inl e
  | inr page => inr (items page)
  end.

(** The local [Product] row (models/integration.py), restricted to the
    columns the sync writes. *)
Record Product := {
  name : string;
  description : string;
  price : Z;
  quantity : Z;
  category : option string;
  external_id : string;
  external_code : string;
  integration_id : string;
  sync_status : string;
  sync_version : Z
}.

(** The [product_data] dictionary of lines 189-209 (every key is present). *)
Record product_data := {
  d_name : string;
  d_description : string;
  d_price : Z;
  d_quantity : Z;
  d_category : option string;
  d_external_id : string;
  d_external_code : string;
  d_integration_id : string;
  d_sync_status : string;
  d_sync_version : Z
}.

Definition or_default {A} (o : option A) (d : A) : A :=
  match o with Some x => x | None => d end.

Definition mk_product_data (integ : string) (op : OneCProduct)
    (existing_product : option Product) : product_data := {|
  d_name := op_name op;
  d_description := or_default (op_full_name op) (op_name op);
  d_price := or_default (op_price op) 0;
  d_quantity := or_default (op_quantity op) 0;
  d_category := op_category op;
  d_external_id := op_id op;
  d_external_code := op_code op;
  d_integration_id := integ;
  d_sync_status := "synced";
  d_sync_version :=
    match existing_product with
    | Some e => sync_version e + 1
    | None => 1
    end
|}.

(** [_should_update_product]: a critical field ([name], [price],
    [quantity]) differs, or [new_data["sync_version"]] is greater than the
    stored one. *)
Definition _should_update_product (existing_product : Product)
    (new_data : product_data) : bool :=
  negb (String.eqb (name existing_product) (d_name new_data))
  || negb (Z.eqb (price existing_product) (d_price new_data))
  || negb (Z.eqb (quantity existing_product) (d_quantity new_data))
  || Z.ltb (sync_version existing_product) (d_sync_version new_data).

(** Modelled from the spec: the local store behind [app.crud.product]
    ([get_product_by_external_id], [create_or_update_product]), which is not
    in the sources.  The spec: at most one Local Record per (integration,
    external identifier); the store applies the mutations the engine
    proposes.  It is a map keyed by (integration id, external id). *)
Abbreviation key := (string * string)%type.
Abbreviation store := (gmap key Product).

Definition get_product_by_external_id (db : store) (external_id integration_id : string)
    : option Product :=
  db !! (integration_id, external_id).

Definition product_of_data (d : product_data) : Product := {|
  name := d_name d;
  description := d_description d;
  price := d_price d;
  quantity := d_quantity d;
  category := d_category d;
  external_id := d_external_id d;
  external_code := d_external_code d;
  integration_id := d_integration_id d;
  sync_status := d_sync_status d;
  sync_version := d_sync_version d
|}.

(** Modelled from the spec: [create_or_update_product db product_data]
    creates the row, [create_or_update_product db product_data id] writes
    every field of [product_data] to the existing row. *)
Definition create_or_update_product (db : store) (d : product_data) : store :=
  <[(d_integration_id d, d_external_id d) := product_of_data d]> db.

(** Where processing of one record raises: in the lookup, in
    [create_or_update_product], or in the [record-updated] notification
    sent after the counter was incremented. *)
Inductive stage := FailLookup | FailPersist | FailNotify.

(** [fault n]: the stage at which the [n]-th record of the page (counted
    from 1, the value of [processed] after its increment) raises, if any. *)
Definition faults := nat -> option stage.

(** Writes issued to the store, in order. *)
Inductive write := WCreate (k : key) | WUpdate (k : key).

(** Broadcasts and commits issued by the loop. *)
Inductive sync_event :=
  | ProductUpdated (k : key)
  | SyncProgress (current total : nat)
  | Commit.

(** Local variables of [_sync_integration_nomenclature] during the loop. *)
Record loop_state := {
  db : store;
  journal : list write;
  processed : nat;
  created : nat;
  updated : nat;
  errors : list string;
  events : list sync_event
}.

Definition set_processed (s : loop_state) (n : nat) : loop_state :=
  Build_loop_state (db s) (journal s) n (created s) (updated s) (errors s) (events s).

Definition add_error (s : loop_state) (e : string) : loop_state :=
  Build_loop_state (db s) (journal s) (processed s) (created s) (updated s)
    (errors s ++ [e]) (events s).

Definition add_event (s : loop_state) (ev : sync_event) : loop_state :=
  Build_loop_state (db s) (journal s) (processed s) (created s) (updated s)
    (errors s) (events s ++ [ev]).

(** [create_or_update_product] followed by [created += 1]. *)
Definition do_create (s : loop_state) (d : product_data) : loop_state :=
  Build_loop_state (create_or_update_product (db s) d)
    (journal s ++ [WCreate (d_integration_id d, d_external_id d)])
    (processed s) (S (created s)) (updated s) (errors s) (events s).

(** [create_or_update_product] followed by [updated += 1]. *)
Definition do_update (s : loop_state) (d : product_data) : loop_state :=
  Build_loop_state (create_or_update_product (db s) d)
    (journal s ++ [WUpdate (d_integration_id d, d_external_id d)])
    (processed s) (created s) (S (updated s)) (errors s) (events s).

(** Lines 229-237: progress every 10 records, commit every 50. *)
Definition progress_and_commit (total : nat) (s : loop_state) : loop_state :=
  let s1 := if Nat.eqb (Nat.modulo (processed s) 10) 0
            then add_event s (SyncProgress (processed s) total) else s in
  if Nat.eqb (Nat.modulo (processed s) 50) 0 then add_event s1 Commit else s1.

Definition error_text (op : OneCProduct) : string := "Product " ++ op_id op.

(** One iteration of the [for onec_product in products] loop (lines
    181-241); an exception jumps to [except Exception] which appends to
    [errors] and keeps every effect made before it. *)
Definition process_product (integ : string) (total : nat) (fault : faults)
    (s : loop_state) (op : OneCProduct) : loop_state :=
  let n := S (processed s) in
  let s1 := set_processed s n in
  let raised (s' : loop_state) := add_error s' (error_text op) in
  match fault n with
  | Some FailLookup => raised s1
  | _ =>
    let existing_product := get_product_by_external_id (db s1) (op_id op) integ in
    let d := mk_product_data integ op existing_product in
    let after_write (s2 : loop_state) :=
      match fault n with
      | Some FailNotify => raised s2
      | _ => progress_and_commit total
               (add_event s2 (ProductUpdated (integ, op_id op)))
      end in
    match existing_product with
    | Some e =>
        if _should_update_product e d then
          match fault n with
          | Some FailPersist => raised s1
          | _ => after_write (do_update s1 d)
          end
        else progress_and_commit total s1
    | None =>
        match fault n with
        | Some FailPersist => raised s1
        | _ => after_write (do_create s1 d)
        end
    end
  end.

(** The [SyncLog] columns written by [update_sync_log]. *)
Record SyncLog := {
  sl_status : string;
  processed_items : nat;
  created_items : nat;
  updated_items : nat;
  failed_items : nat
}.

(** Modelled from the spec: [app.crud.integration.update_sync_log] (not in
    the sources) stores the given status and totals in the run's SyncLog. *)
Definition update_sync_log (status : string) (p c u f : nat) : SyncLog :=
  Build_SyncLog status p c u f.

Record Integration := {
  i_id : string;
  last_sync_at : option Z;
  total_syncs : Z;
  successful_syncs : Z;
  failed_syncs : Z;
  is_healthy : bool;
  last_error : option string
}.

Record sync_result := {
  r_state : loop_state;
  r_log : SyncLog
}.

(** Exceptions leaving [_sync_integration_nomenclature]: the
    [OneCApiError] re-raised from [get_nomenclature], or the [TypeError] of
    line 256. *)
Inductive sync_exc :=
  | FetchError (e : OneCClient.onec_error)
  | DurationTypeError.

(** [_sync_integration_nomenclature]: one call of [get_nomenclature] with
    [updated_since = integration.last_sync_at] and [limit=1000], the loop,
    the final [db.commit()] (line 244) and the final
    [update_sync_log(status="completed", ...)].  Its [duration_seconds]
    argument (line 256) computes [datetime.now() - integration.last_sync_at]
    when [last_sync_at] is set: [last_sync_at] is a [DateTime(timezone=True)]
    column, reloaded after the commit as an aware datetime, and subtracting
    it from the naive [datetime.now()] raises [TypeError]; the SyncLog is
    then not updated and the exception is re-raised.  A raised exception
    comes with the state reached: the store holds the writes committed
    before it, and the events already sent. *)
Definition _sync_integration_nomenclature (integration : Integration)
    (srv : server) (fault : faults) (db0 : store) (journal0 : list write)
    : (sync_exc * loop_state) + sync_result :=
  let s0 := Build_loop_state db0 journal0 0 0 0 [] [] in
  match get_nomenclature srv (last_sync_at integration) 1000 0 with
  | inl e => inl (FetchError e, s0)
  | inr products =>
      let s := fold_left (process_product (i_id integration) (length products) fault)
                 products s0 in
      match last_sync_at integration with
      | Some _ => inl (DurationTypeError, s)
      | None =>
          inr {| r_state := s;
                 r_log := update_sync_log "completed" (processed s) (created s)
                            (updated s) (length (errors s)) |}
      end
  end.

(** The state a run ends in, whether it returned or raised. *)
Definition run_state (res : (sync_exc * loop_state) + sync_result) : loop_state :=
  match res with
  | inl (_, s) => s
  | inr r => r_state r
  end.

(** Lines 76-79 of [sync_nomenclature]: the success path. *)
Definition record_success (now : Z) (i : Integration) : Integration :=
  Build_Integration (i_id i) (Some now) (total_syncs i + 1) (successful_syncs i + 1)
    (failed_syncs i) (is_healthy i) (last_error i).

(** Lines 88-91 of [sync_nomenclature]: the [except Exception] path. *)
Definition record_failure (err : string) (i : Integration) : Integration :=
  Build_Integration (i_id i) (last_sync_at i) (total_syncs i) (successful_syncs i)
    (failed_syncs i + 1) false (Some err).

(** One iteration of the [for integration in integrations] loop of
    [sync_nomenclature]: the integration after the run, and the store. *)
Definition sync_one (now : Z) (err_text : string) (i : Integration) (srv : server)
    (fault : faults) (db0 : store) (journal0 : list write)
    : Integration * store * list write :=
  match _sync_integration_nomenclature i srv fault db0 journal0 with
  | inl (_, s) => (record_failure err_text i, db s, journal s)
  | inr r => (record_success now i, db (r_state r), journal (r_state r))
  end.

(** A sequence of per-integration runs over the shared store. *)
Record run_input := {
  ri_now : Z;
  ri_integration : Integration;
  ri_server : server;
  ri_faults : faults
}.

Fixpoint sync_runs (runs : list run_input) (db0 : store) (journal0 : list write)
    : store * list write :=
  match runs with
  | [] => (db0, journal0)
  | r :: rest =>
      let '(_, db1, j1) := sync_one (ri_now r) "error" (ri_integration r)
                             (ri_server r) (ri_faults r) db0 journal0 in
      sync_runs rest db1 j1
  end.

(** Invariant of the Integration counters stated by the spec. *)
Definition counters_ok (i : Integration) : Prop :=
  successful_syncs i + failed_syncs i <= total_syncs i.

(** Count of record positions in [from .. from+len-1] whose fault satisfies [p]. *)
Definition count_pos (fault : faults) (p : option stage -> bool) (from len : nat) : nat :=
  length (List.filter (fun n => p (fault n)) (seq from len)).

Definition is_fault (o : option stage) : bool :=
  match o with Some _ => true | None => false end.

(** The record reaches its [created += 1] / [updated += 1]. *)
Definition counted (o : option stage) : bool :=
  match o with Some FailLookup | Some FailPersist => false | _ => true end.

(** Number of applied updates of the record with key [k] in a write journal. *)
Definition count_upd (k : key) (j : list write) : nat :=
  length (List.filter (fun w => match w with
                                | WUpdate k' => bool_decide (k' = k)
                                | WCreate _ => false
                                end) j).

(** Every stored record has [sync_version] one more than its applied
    updates; a key without record has no applied update. *)
Definition version_inv (db0 : store) (j : list write) : Prop :=
  forall k, match db0 !! k with
            | Some p => sync_version p = 1 + Z.of_nat (count_upd k j)
            | None => count_upd k j = 0%nat
            end.

(** The events the loop issues for the [c]-th record [op] of a page of
    [total] records when the record does not raise: its [record-updated]
    notification, the progress notification when [c] is a multiple of 10 and
    the commit when [c] is a multiple of 50. A record that raises issues
    none. *)
Definition record_events (integ : string) (total : nat) (fault : faults) (c : nat)
    (op : OneCProduct) : list sync_event :=
  match fault c with
  | None =>
      [ProductUpdated (integ, op_id op)] ++
      (if Nat.eqb (Nat.modulo c 10) 0 then [SyncProgress c total] else []) ++
      (if Nat.eqb (Nat.modulo c 50) 0 then [Commit] else [])
  | Some _ => []
  end.

(** Modelled from the spec: [app.crud.integration.create_sync_log] (not in
    the sources) opens the run's SyncLog with the given status; its totals
    take the column defaults of models/integration.py (0). *)
Definition create_sync_log (status : string) : SyncLog := Build_SyncLog status 0 0 0 0.

(** One integration returned by [_get_integrations_for_sync], with the
    remote endpoint it talks to and the record faults of its run. *)
Record task_run := {
  tr_integration : Integration;
  tr_server : server;
  tr_faults : faults
}.

(** Local variables of [sync_nomenclature], the store, the integrations
    after their update and the SyncLog rows opened by the task, in order. *)
Record task_state := {
  ts_db : store;
  ts_journal : list write;
  total_processed : nat;
  total_created : nat;
  total_updated : nat;
  task_errors : list string;
  ts_integrations : list Integration;
  ts_logs : list SyncLog
}.

(** One iteration of the [for integration in integrations] loop of
    [sync_nomenclature] (lines 52-91); [str_e e] is [str(e)]. *)
Definition sync_task_step (now : Z) (str_e : sync_exc -> string)
    (st : task_state) (run : task_run) : task_state :=
  let integration := tr_integration run in
  let sync_log := create_sync_log "running" in
  match _sync_integration_nomenclature integration (tr_server run) (tr_faults run)
          (ts_db st) (ts_journal st) with
  | inl (e, s) =>
      Build_task_state (db s) (journal s) (total_processed st) (total_created st)
        (total_updated st) (task_errors st ++ [str_e e])
        (ts_integrations st ++ [record_failure (str_e e) integration])
        (ts_logs st ++ [sync_log])
  | inr result =>
      let s := r_state result in
      Build_task_state (db s) (journal s) (total_processed st + processed s)
        (total_created st + created s) (total_updated st + updated s)
        (task_errors st ++ errors s)
        (ts_integrations st ++ [record_success now integration])
        (ts_logs st ++ [r_log result])
  end.

Inductive task_result :=
  | TaskSkipped
  | TaskCompleted (st : task_state).

(** [sync_nomenclature] over the integrations [_get_integrations_for_sync]
    returned: ["skipped"] when there is none, otherwise the loop and the
    ["completed"] result with its totals. *)
Definition sync_nomenclature (now : Z) (str_e : sync_exc -> string)
    (integrations : list task_run) (db0 : store) (journal0 : list write) : task_result :=
  match integrations with
  | [] => TaskSkipped
  | _ => TaskCompleted (fold_left (sync_task_step now str_e) integrations
                          (Build_task_state db0 journal0 0 0 0 [] [] []))
  end.

(** [IntegrationStatus] of models/integration.py. *)
Inductive IntegrationStatus := ACTIVE | INACTIVE | ERROR | SYNCING.

(** The columns [check_integrations_health] writes. *)
Record HealthRow := {
  h_status : IntegrationStatus;
  h_is_healthy : bool
}.

(** The body of the loop of [check_integrations_health] for one
    integration. The client is built with [base_url] and [api_key] only, so
    [max_retries] keeps its default 3. [health_check] catches every error
    [_request] raises, so the [except Exception] branch is not reached. *)
Definition check_integration_health (srv : nat -> OneCClient.attempt_outcome)
    (row : HealthRow) : HealthRow :=
  let is_healthy := OneCClient.health_check 3 srv in
  {| h_status := if is_healthy then h_status row else ERROR;
     h_is_healthy := is_healthy |}.

(** [check_integrations_health]: one sweep over the enabled integrations,
    each with the endpoint it reaches during the sweep. *)
Definition check_integrations_health
    (xs : list ((nat -> OneCClient.attempt_outcome) * HealthRow)) : list HealthRow :=
  map (fun '(srv, row) => check_integration_health srv row) xs.

(** The task totals agree with the SyncLogs the task opened: one error per
    failed record of a completed run and one per run left ["running"]. *)
Definition task_totals_ok (st : task_state) : Prop :=
  total_processed st = sum_list_with processed_items (ts_logs st) /\
  total_created st = sum_list_with created_items (ts_logs st) /\
  total_updated st = sum_list_with updated_items (ts_logs st) /\
  length (task_errors st) =
    (sum_list_with failed_items (ts_logs st) +
     length (List.filter (fun l => String.eqb (sl_status l) "running") (ts_logs st)))%nat.

End Sync.

(* ===================================================================== *)
(** ** ConnectionManager (websocket_manager.py) *)
(* ===================================================================== *)

Module Broadcaster.

(** A subscriber connection is identified by a number; a message by its text. *)
Abbreviation ws := nat.
Abbreviation message := string.

Record manager := {
  (** [self.active_connections]: channel name to set of connections. *)
  active_connections : gmap string (gset ws);
  (** [self.connection_info[ws]["channels"]]. *)
  connection_info : gmap ws (list string);
  (** Messages delivered by [send_json], in order. *)
  outbox : list (ws * message);
  messages_sent : Z;
  errors : Z;
  total_connections : Z;
  current_connections : Z
}.

(** [ConnectionManager.__init__]: the five fixed channels. *)
Definition init : manager := {|
  active_connections :=
    list_to_map [("sync_updates", ∅); ("product_updates", ∅); ("order_updates", ∅);
                 ("system_notifications", ∅); ("all", ∅)];
  connection_info := ∅;
  outbox := [];
  messages_sent := 0; errors := 0; total_connections := 0; current_connections := 0
|}.

(** [if channel in self.active_connections:
        self.active_connections[channel].add(websocket)] *)
Definition add_to (channel : string) (w : ws) (ac : gmap string (gset ws))
    : gmap string (gset ws) :=
  match ac !! channel with
  | Some s => <[channel := s ∪ {[w]}]> ac
  | None => ac
  end.

(** [if channel in self.active_connections:
        self.active_connections[channel].discard(websocket)] *)
Definition discard (channel : string) (w : ws) (ac : gmap string (gset ws))
    : gmap string (gset ws) :=
  match ac !! channel with
  | Some s => <[channel := s ∖ {[w]}]> ac
  | None => ac
  end.

Definition set_registries (m : manager) (ac : gmap string (gset ws))
    (info : gmap ws (list string)) : manager :=
  Build_manager ac info (outbox m) (messages_sent m) (errors m)
    (total_connections m) (current_connections m).

(** [ConnectionManager.connect]: registration on the known requested
    channels, then on ["all"] (always a key: no channel is ever removed from
    the dictionary), the connection info, the statistics and the welcome
    message. *)
Definition connect (w : ws) (channels : list string) (m : manager) : manager :=
  let ac1 := fold_left (fun ac ch => add_to ch w ac) channels (active_connections m) in
  let ac2 := add_to "all" w ac1 in
  Build_manager ac2 (<[w := channels]> (connection_info m))
    (outbox m ++ [(w, "welcome")]) (messages_sent m) (errors m)
    (total_connections m + 1) (current_connections m + 1).

(** [ConnectionManager.disconnect]. *)
Definition disconnect (w : ws) (m : manager) : manager :=
  match connection_info m !! w with
  | None => m
  | Some channels =>
      let ac1 := fold_left (fun ac ch => discard ch w ac) channels (active_connections m) in
      let ac2 := discard "all" w ac1 in
      Build_manager ac2 (delete w (connection_info m)) (outbox m)
        (messages_sent m) (errors m) (total_connections m) (current_connections m - 1)
  end.

(** One iteration of the send loop of [_broadcast_internal]: [fails c]
    says whether [connection.send_json] raises for [c]. *)
Definition send_one (msg : message) (fails : ws -> bool)
    (acc : manager * gset ws) (c : ws) : manager * gset ws :=
  let '(m, disconnected) := acc in
  if fails c then
    (Build_manager (active_connections m) (connection_info m) (outbox m)
       (messages_sent m) (errors m + 1) (total_connections m) (current_connections m),
     disconnected ∪ {[c]})
  else
    (Build_manager (active_connections m) (connection_info m) (outbox m ++ [(c, msg)])
       (messages_sent m + 1) (errors m) (total_connections m) (current_connections m),
     disconnected).

(** [ConnectionManager._broadcast_internal]: unknown channels are ignored;
    every registered connection is sent the message, the failing ones are
    collected and disconnected after the loop. *)
Definition _broadcast_internal (msg : message) (channel : string)
    (fails : ws -> bool) (m : manager) : manager :=
  match active_connections m !! channel with
  | None => m
  | Some conns =>
      let '(m1, disconnected) := fold_left (send_one msg fails) (elements conns) (m, ∅) in
      fold_left (fun m' c => disconnect c m') (elements disconnected) m1
  end.

(** One iteration of the loop of [_handle_subscribe]: a known channel gets
    the connection and joins [current_channels]. *)
Definition subscribe_step (w : ws) (acc : gmap string (gset ws) * gset string) (ch : string)
    : gmap string (gset ws) * gset string :=
  let '(ac, cur) := acc in
  if decide (is_Some (ac !! ch)) then (add_to ch w ac, cur ∪ {[ch]}) else (ac, cur).

(** [_handle_subscribe] of endpoints/websocket.py: [current_channels] is
    [set(connection_info["channels"])], written back as a list. The
    confirmation sent with [send_personal_message] is left out. *)
Definition handle_subscribe (w : ws) (channels : list string) (m : manager) : manager :=
  match connection_info m !! w with
  | None => m
  | Some current =>
      let '(ac, cur) := fold_left (subscribe_step w) channels
                          (active_connections m, list_to_set current) in
      set_registries m ac (<[w := elements cur]> (connection_info m))
  end.

(** One iteration of the loop of [_handle_unsubscribe]. *)
Definition unsubscribe_step (w : ws) (acc : gmap string (gset ws) * gset string) (ch : string)
    : gmap string (gset ws) * gset string :=
  let '(ac, cur) := acc in
  if decide (is_Some (ac !! ch)) then (discard ch w ac, cur ∖ {[ch]}) else (ac, cur).

(** [_handle_unsubscribe] of endpoints/websocket.py; the confirmation
    message is left out as in [handle_subscribe]. *)
Definition handle_unsubscribe (w : ws) (channels : list string) (m : manager) : manager :=
  match connection_info m !! w with
  | None => m
  | Some current =>
      let '(ac, cur) := fold_left (unsubscribe_step w) channels
                          (active_connections m, list_to_set current) in
      set_registries m ac (<[w := elements cur]> (connection_info m))
  end.

(** Operations on the manager: connection lifecycle, subscriber messages and
    dispatches of the queue. *)
Inductive op :=
  | OConnect (w : ws) (channels : list string)
  | ODisconnect (w : ws)
  | OSubscribe (w : ws) (channels : list string)
  | OUnsubscribe (w : ws) (channels : list string)
  | OBroadcast (msg : message) (channel : string) (fails : ws -> bool).

Definition step (m : manager) (o : op) : manager :=
  match o with
  | OConnect w chs => connect w chs m
  | ODisconnect w => disconnect w m
  | OSubscribe w chs => handle_subscribe w chs m
  | OUnsubscribe w chs => handle_unsubscribe w chs m
  | OBroadcast msg ch fails => _broadcast_internal msg ch fails m
  end.

Definition run_ops (ops : list op) (m : manager) : manager := fold_left step ops m.

(** The connections registered on ["all"]. *)
Definition all_registry (m : manager) : gset ws :=
  default ∅ (active_connections m !! "all").

(** No unsubscribe message of the sequence names ["all"]. *)
Definition keeps_all (ops : list op) : bool :=
  forallb (fun o => match o with
                    | OUnsubscribe _ chs => negb (bool_decide ("all" ∈ chs))
                    | _ => true
                    end) ops.

(** Every registration is backed by the connection info: a connection on a
    channel is connected, and the channel is ["all"] or one it asked for. *)
Definition registries_wf (m : manager) : Prop :=
  forall ch s w, active_connections m !! ch = Some s -> w ∈ s ->
    exists cs, connection_info m !! w = Some cs /\ (ch = "all" \/ ch ∈ cs).

(** The endpoint connects each WebSocket object once: every connect in the
    sequence is of a connection that is not connected at that point. *)
Fixpoint connects_fresh (ops : list op) (m : manager) : bool :=
  match ops with
  | [] => true
  | o :: rest =>
      match o with
      | OConnect w _ => bool_decide (connection_info m !! w = None)
      | _ => true
      end && connects_fresh rest (step m o)
  end.

(** The ["all"] registry exists and holds exactly the connected connections. *)
Definition all_inv (m : manager) : Prop :=
  is_Some (active_connections m !! "all") /\
  forall v, is_Some (connection_info m !! v) <-> v ∈ all_registry m.

(** Python's [str.isspace] on one character, read as a code point below
    256: tab to carriage return, the four separators 28-31, space, NEL and
    no-break space. *)
Definition is_py_space (c : ascii) : bool :=
  let n := nat_of_ascii c in
  (Nat.leb 9 n && Nat.leb n 13) || (Nat.leb 28 n && Nat.leb n 32) ||
  Nat.eqb n 133 || Nat.eqb n 160.

Fixpoint lstrip_ws (s : string) : string :=
  match s with
  | EmptyString => EmptyString
  | String c s' => if is_py_space c then lstrip_ws s' else s
  end.

Fixpoint rstrip_ws (s : string) : string :=
  match s with
  | EmptyString => EmptyString
  | String c s' =>
      match rstrip_ws s' with
      | EmptyString => if is_py_space c then EmptyString else String c EmptyString
      | r => String c r
      end
  end.

(** [str.strip()] with no argument. *)
Definition py_strip (s : string) : string := rstrip_ws (lstrip_ws s).

(** [str.split(",")]: the pieces between the commas, one more than there
    are commas. *)
Fixpoint split_comma (s : string) : list string :=
  match s with
  | EmptyString => [EmptyString]
  | String c s' =>
      if Ascii.eqb c ","%char then EmptyString :: split_comma s'
      else match split_comma s' with
           | [] => [String c EmptyString]
           | p :: ps => String c p :: ps
           end
  end.

(** Line 33 of endpoints/websocket.py:
    [channel_list = [ch.strip() for ch in channels.split(",")]]. *)
Definition parse_channels (channels : string) : list string :=
  map py_strip (split_comma channels).

Fixpoint no_comma (s : string) : bool :=
  match s with
  | EmptyString => true
  | String c s' => negb (Ascii.eqb c ","%char) && no_comma s'
  end.

Fixpoint all_space (s : string) : bool :=
  match s with
  | EmptyString => true
  | String c s' => is_py_space c && all_space s'
  end.

End Broadcaster.

(* ===================================================================== *)
(** ** Concrete inputs used by the witnesses and counterexamples *)
(* ===================================================================== *)

Module Scenarios.
Import Sync.

(** The [i]-th remote product: id ["p<i>"], name ["A"], price 100,
    quantity 10. *)
Definition remote_product (i : nat) : OneCProduct := {|
  op_id := "p" +:+ pretty (N.of_nat i);
  op_code := "C" +:+ pretty (N.of_nat i);
  op_name := "A";
  op_full_name := None;
  op_price := Some 100;
  op_quantity := Some 10;
  op_category := None
|}.

(** A fresh integration that never synchronised. *)
Definition fresh_integration : Integration :=
  Build_Integration "integration-1" None 0 0 0 true None.

(** An integration that synchronised before: [last_sync_at] is set. *)
Definition synced_integration : Integration :=
  Build_Integration "integration-1" (Some 1) 1 1 0 true None.

(** One page of [n] records. *)
Definition one_page (n : nat) : server :=
  fun _ _ _ => inr (Build_Page (map remote_product (seq 1 n)) false).

(** 150 records served as two pages, 100 with [has_more=true] then 50 with
    [has_more=false]. *)
Definition two_pages : server :=
  fun _ _ offset =>
    if Nat.eqb offset 0 then inr (Build_Page (map remote_product (seq 1 100)) true)
    else inr (Build_Page (map remote_product (seq 101 50)) false).

(** A remote system that is down. *)
Definition server_down : server := fun _ _ _ => inl OneCClient.OneCConnectionError.

Definition no_faults : faults := fun _ => None.

(** Record #5 raises in [create_or_update_product]. *)
Definition fifth_persist_fails : faults :=
  fun n => if Nat.eqb n 5 then Some FailPersist else None.

(** Three runs of the same unchanged page of three records. *)
Definition three_reruns : list run_input :=
  map (fun t => Build_run_input t fresh_integration (one_page 3) no_faults) [1; 2; 3].

(** Three subscribers of ["sync_updates"]. *)
Definition three_subscribers : Broadcaster.manager :=
  Broadcaster.run_ops
    [Broadcaster.OConnect 1 ["sync_updates"]; Broadcaster.OConnect 2 ["sync_updates"];
     Broadcaster.OConnect 3 ["sync_updates"]] Broadcaster.init.

(** The send to subscriber #2 raises. *)
Definition second_fails (w : nat) : bool := Nat.eqb w 2.

(** A subscriber of ["sync_updates"] that then sends
    [{"type": "unsubscribe", "channels": ["all"]}]. *)
Definition left_all : Broadcaster.manager :=
  Broadcaster.run_ops
    [Broadcaster.OConnect 1 ["sync_updates"]; Broadcaster.OUnsubscribe 1 ["all"]]
    Broadcaster.init.

End Scenarios.

(* ===================================================================== *)
(** * Properties of the client *)
(* ===================================================================== *)

Module ClientProofs.
Import OneCClient.

Lemma request_loop_head (n : nat) (server : nat -> attempt_outcome) (a fuel : nat) :
  (1 <= fuel)%nat -> exists rest, snd (request_loop n server a fuel) = Attempt a :: rest.
Proof.
  intros Hf. destruct fuel as [|fuel]; [lia|]. simpl.
  destruct (try_body (server a)) as [[| |e]|]; simpl; eauto.
  destruct (Nat.eqb a (n - 1)); simpl; eauto.
  destruct (request_loop n server (S a) fuel). simpl. eauto.
Qed.

Lemma request_loop_all_transport (n : nat) (server : nat -> attempt_outcome) :
  forall fuel a, (a + fuel = n)%nat -> (1 <= fuel)%nat ->
  (forall j, (a <= j < n)%nat -> server j = TransportFailure) ->
  request_loop n server a fuel = (Raised OneCConnectionError, backoff_from a fuel).
Proof.
  induction fuel as [|fuel IH]; intros a Ha Hf Hs; [lia|].
  simpl. rewrite (Hs a) by lia. simpl.
  destruct (Nat.eqb_spec a (n - 1)) as [Heq|Hne].
  - assert (fuel = 0)%nat as -> by lia. reflexivity.
  - rewrite (IH (S a)) by (intros; try apply Hs; lia).
    destruct fuel as [|fuel']; [lia|]. reflexivity.
Qed.

Lemma request_loop_prefix (n : nat) (server : nat -> attempt_outcome) (k : nat) :
  (k < n - 1)%nat ->
  forall fuel a, (a + fuel = n)%nat -> (a <= k)%nat ->
  (forall j, (a <= j <= k)%nat -> server j = TransportFailure) ->
  exists rest, snd (request_loop n server a fuel) =
    backoff_from a (S k - a) ++ Sleep (2 ^ Z.of_nat k) :: Attempt (S k) :: rest.
Proof.
  intros Hk. induction fuel as [|fuel IH]; intros a Ha Hak Hs; [lia|].
  simpl. rewrite (Hs a) by lia. simpl.
  destruct (Nat.eqb_spec a (n - 1)) as [Heq|Hne]; [lia|].
  destruct (Nat.eq_dec a k) as [->|Hak'].
  - destruct (request_loop_head n server (S k) fuel) as [rest Hr]; [lia|].
    destruct (request_loop n server (S k) fuel) as [r tr] eqn:E. simpl in *.
    subst tr. exists rest. replace (S k - k)%nat with 1%nat by lia. reflexivity.
  - destruct (IH (S a)) as [rest Hr]; [lia|lia|intros; apply Hs; lia|].
    destruct (request_loop n server (S a) fuel) as [r tr] eqn:E. simpl in *.
    exists rest. rewrite Hr.
    replace (S k - a)%nat with (S (S (k - S a))) by lia.
    replace (k - a)%nat with (S (k - S a)) by lia.
    reflexivity.
Qed.

(** C8. A transport failure on attempt [k] (counted from 0) with
    [k < max_retries - 1] is followed by a sleep of exactly [2^k] seconds and
    attempt [k+1]; when all [max_retries] attempts fail at transport level
    the call raises [OneCConnectionError] after exactly those attempts. *)
Theorem request_transport_backoff (max_retries : nat) (server : nat -> attempt_outcome)
    (k : nat)
    (Hfail : forall j, (j <= k)%nat -> server j = TransportFailure)
    (Hk : (k < max_retries)%nat) :
  ((k < max_retries - 1)%nat ->
     exists rest, snd (_request max_retries server) =
       backoff_from 0 (S k) ++ Sleep (2 ^ Z.of_nat k) :: Attempt (S k) :: rest) /\
  ((k = max_retries - 1)%nat ->
     _request max_retries server = (Raised OneCConnectionError, backoff_from 0 max_retries)).
Proof.
  split.
  - intros Hk1. unfold _request.
    destruct (request_loop_prefix max_retries server k Hk1 max_retries 0) as [rest Hr];
      [lia|lia|intros; apply Hfail; lia|].
    exists rest. rewrite Hr. replace (S k - 0)%nat with (S k) by lia. reflexivity.
  - intros ->. unfold _request.
    apply request_loop_all_transport; [lia|lia|intros; apply Hfail; lia].
Qed.

Lemma request_transport_backoff_witness :
  _request 3 (fun _ => TransportFailure) =
    (Raised OneCConnectionError, [Attempt 0; Sleep 1; Attempt 1; Sleep 2; Attempt 2]).
Proof.
  destruct (request_transport_backoff 3 (fun _ => TransportFailure) 2
              (fun j _ => eq_refl) ltac:(lia)) as [_ H].
  rewrite (H eq_refl). reflexivity.
Defined.

(** C2 (as amended). With [max_retries >= 1], a first answer HTTP 503 ends
    the call after exactly one attempt: the 503 is not retried.  The error
    raised is of the [OneCApiError] family and is neither the auth kind nor
    the response-error kind. *)
Theorem request_503_single_attempt (max_retries : nat) (server : nat -> attempt_outcome)
    (body : response_body)
    (Hn : (1 <= max_retries)%nat) (H503 : server 0%nat = HttpResponse 503 body) :
  snd (_request max_retries server) = [Attempt 0] /\
  exists e, fst (_request max_retries server) = Raised e /\
            e <> OneCAuthError /\ (forall sc, e <> OneCResponseError sc).
Proof.
  unfold _request. destruct max_retries as [|n]; [lia|]. simpl. rewrite H503. simpl.
  split; [reflexivity|]. exists OneCApiError. repeat split; congruence.
Qed.

Lemma request_503_single_attempt_witness :
  snd (_request 3 (fun _ => HttpResponse 503 NonJsonBody)) = [Attempt 0] /\
  exists e, fst (_request 3 (fun _ => HttpResponse 503 NonJsonBody)) = Raised e /\
            e <> OneCAuthError /\ (forall sc, e <> OneCResponseError sc).
Proof.
  apply (request_503_single_attempt 3 (fun _ => HttpResponse 503 NonJsonBody) NonJsonBody);
    [lia|reflexivity].
Defined.

(** C2 (counterexample). Against a server that answers 503 to every
    attempt, with [max_retries = 3], the client does not make 3 attempts and
    does not raise [OneCConnectionError]: it makes one attempt and raises
    [OneCApiError]. *)
Lemma request_503_always_counterexample :
  attempts (snd (_request 3 (fun _ => HttpResponse 503 JsonBody))) = 1%nat /\
  fst (_request 3 (fun _ => HttpResponse 503 JsonBody)) = Raised OneCApiError /\
  ~ (attempts (snd (_request 3 (fun _ => HttpResponse 503 JsonBody))) = 3%nat /\
     fst (_request 3 (fun _ => HttpResponse 503 JsonBody)) = Raised OneCConnectionError).
Proof. vm_compute. split; [reflexivity|]. split; [reflexivity|]. intros [H _]. discriminate. Qed.

(** C5. A first answer HTTP 401 ends the call after one attempt (no retry),
    but the [OneCAuthError] raised by the status check is caught by the
    [except Exception] clause of the same [try] and re-raised as a plain
    [OneCApiError]: the call never surfaces [OneCAuthError]. *)
Theorem request_401_raises_api_error (max_retries : nat) (server : nat -> attempt_outcome)
    (body : response_body)
    (Hn : (1 <= max_retries)%nat) (H401 : server 0%nat = HttpResponse 401 body) :
  _request max_retries server = (Raised OneCApiError, [Attempt 0]).
Proof.
  unfold _request. destruct max_retries as [|n]; [lia|]. simpl. rewrite H401. reflexivity.
Qed.

Lemma request_401_raises_api_error_witness :
  _request 3 (fun _ => HttpResponse 401 JsonBody) = (Raised OneCApiError, [Attempt 0]).
Proof.
  apply (request_401_raises_api_error 3 (fun _ => HttpResponse 401 JsonBody) JsonBody);
    [lia|reflexivity].
Defined.

End ClientProofs.

Module ClientExtra.
Import OneCClient.

Lemma try_body_http (sc : Z) (body : response_body) :
  try_body (HttpResponse sc body) <> Some ExcTransport.
Proof.
  unfold try_body.
  destruct (Z.leb 400 sc), (Z.eqb sc 401), (existsb (Z.eqb sc) [502; 503; 504]), body;
    discriminate.
Qed.

Lemma outcome_result_http (sc : Z) (body : response_body) :
  outcome_result (HttpResponse sc body) = Returned <-> sc < 400 /\ body <> NonJsonBody.
Proof.
  unfold outcome_result, try_body. destruct (Z.leb_spec 400 sc).
  - destruct (Z.eqb sc 401), (existsb (Z.eqb sc) [502; 503; 504]);
      split; try discriminate; intros [Hl _]; lia.
  - destruct body; simpl; split; intros Hr; try reflexivity;
      try (split; [lia|discriminate]); try discriminate.
    destruct Hr as [_ Hb]. contradiction.
Qed.

(** Every run of the loop: either some attempt [k] is the first whose outcome
    is not a transport failure, and the loop ends there, or all remaining
    attempts fail at transport level. *)
Lemma request_loop_cases (n : nat) (server : nat -> attempt_outcome) :
  forall fuel a, (a + fuel = n)%nat -> (1 <= fuel)%nat ->
  (exists k, (a <= k < n)%nat /\ (forall j, (a <= j < k)%nat -> server j = TransportFailure) /\
     server k <> TransportFailure /\
     request_loop n server a fuel = (outcome_result (server k), backoff_from a (S k - a))) \/
  ((forall j, (a <= j < n)%nat -> server j = TransportFailure) /\
     request_loop n server a fuel = (Raised OneCConnectionError, backoff_from a fuel)).
Proof.
  induction fuel as [|fuel IH]; intros a Ha Hf; [lia|].
  destruct (server a) eqn:Hs.
  - left. exists a. split; [lia|]. split; [intros; lia|]. split; [congruence|].
    simpl. rewrite Hs. unfold outcome_result.
    replace (S a - a)%nat with 1%nat by lia.
    pose proof (try_body_http status_code body) as Ht.
    destruct (try_body (HttpResponse status_code body)) as [[| |e]|]; try reflexivity.
    contradiction.
  - simpl. rewrite Hs. simpl.
    destruct (Nat.eqb_spec a (n - 1)) as [Heq|Hne].
    + right. split; [intros j Hj; replace j with a by lia; exact Hs|].
      assert (fuel = 0)%nat as -> by lia. reflexivity.
    + destruct (IH (S a)) as [(k & Hk & Hpre & Hnt & Hr)|(Hall & Hr)]; [lia|lia| |];
        rewrite Hr.
      * left. exists k. split; [lia|]. split.
        { intros j Hj. destruct (Nat.eq_dec j a) as [->|]; [exact Hs|apply Hpre; lia]. }
        split; [exact Hnt|].
        replace (S k - a)%nat with (S (S (k - S a))) by lia.
        replace (S k - S a)%nat with (S (k - S a)) by lia. reflexivity.
      * right. split.
        { intros j Hj. destruct (Nat.eq_dec j a) as [->|]; [exact Hs|apply Hall; lia]. }
        destruct fuel as [|fuel']; [lia|]. reflexivity.
  - left. exists a. split; [lia|]. split; [intros; lia|]. split; [congruence|].
    simpl. rewrite Hs. replace (S a - a)%nat with 1%nat by lia. reflexivity.
Qed.

Lemma backoff_from_sleep (a : nat) :
  forall m, total_sleep (backoff_from a (S m)) + 2 ^ Z.of_nat a = 2 ^ Z.of_nat (a + m).
Proof.
  intros m. revert a. induction m as [|m IH]; intros a.
  - simpl. rewrite Nat.add_0_r. lia.
  - change (backoff_from a (S (S m))) with
      (Attempt a :: Sleep (2 ^ Z.of_nat a) :: backoff_from (S a) (S m)).
    cbn [total_sleep fold_right]. fold (total_sleep (backoff_from (S a) (S m))).
    pose proof (IH (S a)) as H.
    replace (S a + m)%nat with (a + S m)%nat in H by lia.
    rewrite Nat2Z.inj_succ, Z.pow_succ_r in H by lia. lia.
Qed.

Lemma backoff_from_attempts (a : nat) :
  forall m, attempts (backoff_from a m) = m.
Proof.
  intros m. revert a. induction m as [|m IH]; intros a; [reflexivity|].
  destruct m as [|m]; [reflexivity|].
  change (backoff_from a (S (S m))) with
    (Attempt a :: Sleep (2 ^ Z.of_nat a) :: backoff_from (S a) (S m)).
  transitivity (S (attempts (backoff_from (S a) (S m)))); [reflexivity|].
  rewrite IH. reflexivity.
Qed.

(** X1. The trace of every call is [k] attempts numbered [0 .. k-1],
    separated by sleeps of [2^0 .. 2^(k-2)] seconds, with
    [1 <= k <= max_retries] when [max_retries >= 1]. The call falls off the
    loop and returns [None] exactly when [max_retries = 0], without any
    attempt. *)
Theorem request_trace_shape (max_retries : nat) (server : nat -> attempt_outcome) :
  exists k, (k <= max_retries)%nat /\ ((1 <= max_retries)%nat -> (1 <= k)%nat) /\
    snd (_request max_retries server) = backoff_from 0 k /\
    attempts (snd (_request max_retries server)) = k /\
    (fst (_request max_retries server) = ReturnedNone <-> max_retries = 0%nat).
Proof.
  destruct max_retries as [|n].
  - exists 0%nat. repeat split; try lia; reflexivity.
  - unfold _request.
    destruct (request_loop_cases (S n) server (S n) 0) as [(k & Hk & _ & _ & Hr)|(_ & Hr)];
      [lia|lia| |]; rewrite Hr.
    + exists (S k - 0)%nat. split; [lia|]. split; [lia|]. split; [reflexivity|].
      split; [apply backoff_from_attempts|].
      unfold outcome_result. simpl. destruct (try_body (server k)); split; discriminate.
    + exists (S n). split; [lia|]. split; [lia|]. split; [reflexivity|].
      split; [apply backoff_from_attempts|]. simpl. split; discriminate.
Qed.

(** X2. A call never sleeps more than [2^(max_retries-1) - 1] seconds in
    total. *)
Theorem request_sleep_bound (max_retries : nat) (server : nat -> attempt_outcome) :
  total_sleep (snd (_request max_retries server)) + 1 <= 2 ^ Z.of_nat (Nat.pred max_retries).
Proof.
  destruct max_retries as [|n]; [simpl; lia|]. unfold _request.
  destruct (request_loop_cases (S n) server (S n) 0) as [(k & Hk & _ & _ & Hr)|(_ & Hr)];
    [lia|lia| |]; rewrite Hr; simpl snd.
  - replace (S k - 0)%nat with (S k) by lia.
    pose proof (backoff_from_sleep 0 k) as H. simpl in H |- *.
    assert (2 ^ Z.of_nat k <= 2 ^ Z.of_nat n) by (apply Z.pow_le_mono_r; lia). lia.
  - pose proof (backoff_from_sleep 0 n) as H. simpl in H |- *. lia.
Qed.

(** X3. [_request] only ever raises [OneCApiError] or
    [OneCConnectionError]; it raises [OneCConnectionError] exactly when
    [max_retries >= 1] and every one of the [max_retries] attempts fails at
    transport level. *)
Theorem request_error_kinds (max_retries : nat) (server : nat -> attempt_outcome) :
  (forall e, fst (_request max_retries server) = Raised e ->
     e = OneCApiError \/ e = OneCConnectionError) /\
  (fst (_request max_retries server) = Raised OneCConnectionError <->
     (1 <= max_retries)%nat /\ forall j, (j < max_retries)%nat -> server j = TransportFailure).
Proof.
  destruct max_retries as [|n].
  - split; [intros e H; discriminate|]. split; [intros H; discriminate|lia].
  - unfold _request.
    destruct (request_loop_cases (S n) server (S n) 0) as [(k & Hk & _ & Hnt & Hr)|(Hall & Hr)];
      [lia|lia| |]; rewrite Hr; simpl fst; unfold outcome_result.
    + split.
      * intros e. destruct (try_body (server k)); intros H; [injection H as <-; auto|discriminate].
      * split.
        { destruct (try_body (server k)); intros H; discriminate. }
        { intros [_ Hall]. exfalso. apply Hnt, Hall. lia. }
    + split.
      * intros e H. injection H as <-. auto.
      * split; [intros _; split; [lia|intros j Hj; apply Hall; lia]|reflexivity].
Qed.

(** X4. [health_check] reports healthy exactly when [max_retries = 0] (no
    request is made) or some attempt [k < max_retries] gets an HTTP status
    below 400 with an empty or JSON body after attempts [0 .. k-1] all
    failed at transport level; a non-JSON body makes the check fail. *)
Theorem health_check_spec (max_retries : nat) (server : nat -> attempt_outcome) :
  health_check max_retries server = true <->
  max_retries = 0%nat \/
  exists k sc body, (k < max_retries)%nat /\
    (forall j, (j < k)%nat -> server j = TransportFailure) /\
    server k = HttpResponse sc body /\ sc < 400 /\ body <> NonJsonBody.
Proof.
  unfold health_check. destruct max_retries as [|n].
  - simpl. split; [left; reflexivity|reflexivity].
  - unfold _request.
    destruct (request_loop_cases (S n) server (S n) 0) as [(k & Hk & Hpre & Hnt & Hr)|(Hall & Hr)];
      [lia|lia| |]; rewrite Hr; simpl fst.
    + split.
      * intros H. right. exists k.
        destruct (server k) as [sc body| |] eqn:Hs; [|congruence|].
        { exists sc, body. split; [lia|]. split; [intros j Hj; apply Hpre; lia|].
          split; [reflexivity|].
          apply outcome_result_http. unfold outcome_result in H |- *.
          destruct (try_body (HttpResponse sc body)); [discriminate|reflexivity]. }
        { simpl in H. discriminate. }
      * intros [H|(k' & sc & body & Hk' & Hpre' & Hs & Hlt & Hb)]; [lia|].
        assert (k' = k) as ->.
        { destruct (Nat.lt_trichotomy k' k) as [Hl|[Heq|Hl]]; [|exact Heq|].
          - rewrite (Hpre k') in Hs by lia. discriminate.
          - exfalso. apply Hnt, Hpre'. exact Hl. }
        rewrite Hs. assert (Hr' : outcome_result (HttpResponse sc body) = Returned)
          by (apply outcome_result_http; split; assumption).
        rewrite Hr'. reflexivity.
    + split; [discriminate|].
      intros [H|(k & sc & body & Hk & _ & Hs & _)]; [lia|]. rewrite Hall in Hs by lia. discriminate.
Qed.

Lemma lstrip_slashes (e : string) : forall j, lstrip_slash (slashes j +:+ e) = lstrip_slash e.
Proof. induction j as [|j IH]; [reflexivity|]. simpl. exact IH. Qed.

Lemma rstrip_slashes_only (i : nat) : rstrip_slash (slashes i) = EmptyString.
Proof. induction i as [|i IH]; [reflexivity|]. simpl. rewrite IH. reflexivity. Qed.

Lemma rstrip_slashes (i : nat) : forall b, rstrip_slash (b +:+ slashes i) = rstrip_slash b.
Proof.
  induction b as [|c b IH]; [apply rstrip_slashes_only|]. simpl. rewrite IH. reflexivity.
Qed.

Lemma lstrip_slash_head (e : string) :
  forall c r, lstrip_slash e = String c r -> c <> "/"%char.
Proof.
  induction e as [|c0 e IH]; intros c r H; simpl in H; [discriminate|].
  destruct (Ascii.eqb_spec c0 "/"%char) as [->|Hne]; [exact (IH c r H)|].
  injection H as <- _. exact Hne.
Qed.

Lemma rstrip_slash_last (b : string) : forall p, rstrip_slash b <> p +:+ "/".
Proof.
  induction b as [|c b IH]; intros p H; simpl in H.
  - destruct p; discriminate.
  - destruct (rstrip_slash b) as [|c' r] eqn:E.
    + destruct (Ascii.eqb_spec c "/"%char) as [->|Hne].
      * destruct p; discriminate.
      * destruct p as [|c1 [|c2 p]]; simpl in H; try discriminate.
        injection H as -> . contradiction.
    + destruct p as [|c1 p]; simpl in H.
      * injection H as -> E'. subst. discriminate.
      * injection H as -> H. exact (IH p H).
Qed.

(** X5. The request URL does not depend on trailing slashes of [base_url]
    or leading slashes of the endpoint, and the base and the path are joined
    by exactly one slash: the base part never ends in ['/'] and the path
    part never starts with ['/']. *)
Theorem request_url_slashes (base_url endpoint : string) (i j : nat) :
  request_url (base_url +:+ slashes i) (slashes j +:+ endpoint) = request_url base_url endpoint /\
  request_url base_url endpoint = rstrip_slash base_url +:+ "/" +:+ lstrip_slash endpoint /\
  (forall p, rstrip_slash base_url <> p +:+ "/") /\
  (forall c r, lstrip_slash endpoint = String c r -> c <> "/"%char).
Proof.
  split; [unfold request_url; rewrite rstrip_slashes, lstrip_slashes; reflexivity|].
  split; [reflexivity|]. split; [apply rstrip_slash_last|apply lstrip_slash_head].
Qed.

Lemma fixed_headers_mem (k v : string) :
  k <> "User-Agent" -> k <> "Accept" -> k <> "Content-Type" -> (k, v) ∉ fixed_headers.
Proof.
  intros H1 H2 H3 H. unfold fixed_headers in H.
  rewrite !elem_of_cons, elem_of_nil in H.
  destruct H as [H|[H|[H|[]]]]; injection H as -> _; contradiction.
Qed.

Lemma headers_mem (k v : string) (extra : list (string * string)) :
  k <> "User-Agent" -> k <> "Accept" -> k <> "Content-Type" ->
  (k, v) ∈ fixed_headers ++ extra <-> (k, v) ∈ extra.
Proof.
  intros H1 H2 H3. rewrite elem_of_app. split; [|auto].
  intros [H|H]; [exfalso; exact (fixed_headers_mem k v H1 H2 H3 H)|exact H].
Qed.

(** X6. [_get_headers] always starts with the three fixed headers. It sends
    [X-API-Key] with value [v] exactly when [api_key] is the non-empty string
    [v]. It sends an [Authorization] header exactly when [api_key] is
    missing or empty and both [username] and [password] are non-empty. *)
Theorem get_headers_auth (b64 : string -> string) (api_key username password : option string) :
  let h := _get_headers b64 api_key username password in
  take 3 h = fixed_headers /\
  (forall v, ("X-API-Key", v) ∈ h <-> api_key = Some v /\ v <> "") /\
  ((exists v, ("Authorization", v) ∈ h) <->
     truthy api_key = false /\ truthy username = true /\ truthy password = true).
Proof.
  intros h. unfold h, _get_headers.
  destruct (truthy api_key) eqn:Hk; [|destruct (truthy username && truthy password) eqn:Hup];
    (split; [reflexivity|]); split.
  - intros v. rewrite headers_mem by discriminate. rewrite list_elem_of_singleton. split.
    + intros H. injection H as Hv. destruct api_key as [k|]; simpl in Hk, Hv; [|discriminate].
      subst v. split; [reflexivity|]. intros ->. discriminate.
    + intros [-> Hv]. reflexivity.
  - split; [|intros [H _]; discriminate].
    intros [v Hv]. rewrite headers_mem in Hv by discriminate.
    apply list_elem_of_singleton in Hv. discriminate.
  - intros v. rewrite headers_mem by discriminate. rewrite list_elem_of_singleton.
    split; [intros H; discriminate|]. intros [-> Hv]. exfalso. simpl in Hk.
    apply negb_false_iff, String.eqb_eq in Hk. contradiction.
  - apply andb_prop in Hup as [Hu Hp]. split; [intros _; auto|]. intros _.
    eexists. rewrite headers_mem by discriminate. apply list_elem_of_singleton. reflexivity.
  - intros v. split; [intros H; exfalso; exact (fixed_headers_mem "X-API-Key" v ltac:(discriminate)
                        ltac:(discriminate) ltac:(discriminate) H)|].
    intros [-> Hv]. exfalso. simpl in Hk.
    apply negb_false_iff, String.eqb_eq in Hk. contradiction.
  - split.
    + intros [v Hv]. exfalso. exact (fixed_headers_mem "Authorization" v ltac:(discriminate)
                        ltac:(discriminate) ltac:(discriminate) Hv).
    + intros [_ [Hu Hp]]. rewrite Hu, Hp in Hup. discriminate.
Qed.

End ClientExtra.

(* ===================================================================== *)
(** * Properties of the nomenclature synchronisation *)
(* ===================================================================== *)

Module SyncProofs.
Import Sync.

(** The decision the loop makes for an existing record: [product_data]
    carries [existing.sync_version + 1], so the version test of
    [_should_update_product] always holds. *)
Lemma should_update_existing (integ : string) (op : OneCProduct) (e : Product) :
  _should_update_product e (mk_product_data integ op (Some e)) = true.
Proof.
  unfold _should_update_product, mk_product_data; simpl.
  rewrite (proj2 (Z.ltb_lt _ _)) by lia. now rewrite !orb_true_r.
Qed.

Lemma progress_and_commit_counters (total : nat) (s : loop_state) :
  db (progress_and_commit total s) = db s /\
  journal (progress_and_commit total s) = journal s /\
  processed (progress_and_commit total s) = processed s /\
  created (progress_and_commit total s) = created s /\
  updated (progress_and_commit total s) = updated s /\
  errors (progress_and_commit total s) = errors s.
Proof.
  unfold progress_and_commit.
  destruct (Nat.eqb (Nat.modulo (processed s) 10) 0);
  destruct (Nat.eqb (Nat.modulo (processed s) 50) 0); simpl; repeat split.
Qed.

Lemma process_product_counts (integ : string) (total : nat) (fault : faults)
    (s : loop_state) (op : OneCProduct) :
  let s' := process_product integ total fault s op in
  processed s' = S (processed s) /\
  length (errors s') = (length (errors s) + if is_fault (fault (S (processed s))) then 1 else 0)%nat /\
  (created s' + updated s' = created s + updated s +
     if counted (fault (S (processed s))) then 1 else 0)%nat.
Proof.
  unfold process_product; simpl.
  destruct (fault (S (processed s))) as [[| |]|] eqn:F; simpl;
    [rewrite length_app; simpl; lia|..];
    destruct (get_product_by_external_id (db s) (op_id op) integ) as [e|]; simpl;
    try rewrite should_update_existing; simpl;
    try (rewrite length_app; simpl; lia);
    match goal with
    | |- context [progress_and_commit ?t ?s'] =>
        destruct (progress_and_commit_counters t s') as (Hdb&Hj&Hp&Hc&Hu&He)
    end; rewrite ?Hp, ?Hc, ?Hu, ?He; simpl; repeat split; lia.
Qed.

Lemma count_pos_S (fault : faults) (p : option stage -> bool) (from len : nat) :
  count_pos fault p from (S len) =
    ((if p (fault from) then 1 else 0) + count_pos fault p (S from) len)%nat.
Proof. unfold count_pos. simpl. destruct (p (fault from)); reflexivity. Qed.

Lemma fold_process_counts (integ : string) (total : nat) (fault : faults) :
  forall (l : list OneCProduct) (s : loop_state),
  let s' := fold_left (process_product integ total fault) l s in
  processed s' = (processed s + length l)%nat /\
  length (errors s') = (length (errors s) + count_pos fault is_fault (S (processed s)) (length l))%nat /\
  (created s' + updated s' = created s + updated s +
     count_pos fault counted (S (processed s)) (length l))%nat.
Proof.
  induction l as [|op l IH]; intros s; simpl.
  - unfold count_pos. simpl. lia.
  - destruct (process_product_counts integ total fault s op) as (Hp & He & Hc).
    destruct (IH (process_product integ total fault s op)) as (Hp' & He' & Hc').
    rewrite Hp in Hp', He', Hc'. rewrite !count_pos_S.
    repeat split; lia.
Qed.

(** C6. Within one integration's run, a record whose processing raises is
    appended to [errors] and the loop goes on with the next record: every
    record of the page is processed, [errors] holds one entry per record
    that raised, and [created + updated] counts the records that reached
    their counter (every record that did not raise, plus those that raised
    only in the notification sent after it).  The run finalises its SyncLog
    as ["completed"] with these counts only when [last_sync_at] is unset;
    when it is set, the run raises [TypeError] at line 256 after the loop,
    and the SyncLog is not finalised. *)
Theorem sync_partial_failure_isolation (integration : Integration) (srv : server)
    (fault : faults) (db0 : store) (journal0 : list write) (page : Page)
    (Hpage : srv (last_sync_at integration) 1000%nat 0%nat = inr page) :
  match _sync_integration_nomenclature integration srv fault db0 journal0 with
  | inr r =>
      last_sync_at integration = None /\
      sl_status (r_log r) = "completed" /\
      processed_items (r_log r) = length (items page) /\
      failed_items (r_log r) = count_pos fault is_fault 1 (length (items page)) /\
      (created_items (r_log r) + updated_items (r_log r))%nat =
        count_pos fault counted 1 (length (items page))
  | inl (exc, s) =>
      exc = DurationTypeError /\
      last_sync_at integration <> None /\
      processed s = length (items page) /\
      length (errors s) = count_pos fault is_fault 1 (length (items page)) /\
      (created s + updated s)%nat = count_pos fault counted 1 (length (items page))
  end.
Proof.
  unfold _sync_integration_nomenclature, get_nomenclature. rewrite Hpage.
  destruct (fold_process_counts (i_id integration) (length (items page)) fault (items page)
              (Build_loop_state db0 journal0 0 0 0 [] [])) as (Hp & He & Hc).
  simpl in Hp, He, Hc.
  destruct (last_sync_at integration) eqn:L; simpl;
    repeat split; try lia; discriminate.
Qed.

Lemma sync_partial_failure_isolation_witness :
  match _sync_integration_nomenclature Scenarios.synced_integration
          (Scenarios.one_page 10) Scenarios.fifth_persist_fails ∅ [] with
  | inr r =>
      last_sync_at Scenarios.synced_integration = None /\
      sl_status (r_log r) = "completed" /\
      processed_items (r_log r) = length (items (Build_Page (map Scenarios.remote_product (seq 1 10)) false)) /\
      failed_items (r_log r) = count_pos Scenarios.fifth_persist_fails is_fault 1 10 /\
      (created_items (r_log r) + updated_items (r_log r))%nat =
        count_pos Scenarios.fifth_persist_fails counted 1 10
  | inl (exc, s) =>
      exc = DurationTypeError /\
      last_sync_at Scenarios.synced_integration <> None /\
      processed s = length (items (Build_Page (map Scenarios.remote_product (seq 1 10)) false)) /\
      length (errors s) = count_pos Scenarios.fifth_persist_fails is_fault 1 10 /\
      (created s + updated s)%nat = count_pos Scenarios.fifth_persist_fails counted 1 10
  end /\
  count_pos Scenarios.fifth_persist_fails is_fault 1 10 = 1%nat /\
  count_pos Scenarios.fifth_persist_fails counted 1 10 = 9%nat /\
  match _sync_integration_nomenclature Scenarios.synced_integration
          (Scenarios.one_page 10) Scenarios.fifth_persist_fails ∅ [] with
  | inl (DurationTypeError, _) => True
  | _ => False
  end.
Proof.
  split; [|split; [reflexivity|split; [reflexivity|vm_compute; exact I]]].
  apply (sync_partial_failure_isolation Scenarios.synced_integration (Scenarios.one_page 10)
           Scenarios.fifth_persist_fails ∅ []
           (Build_Page (map Scenarios.remote_product (seq 1 10)) false)).
  reflexivity.
Defined.

(** C4 (as amended). A run makes exactly one request, with
    [updated_since = last_sync_at], [limit = 1000] and [offset = 0]: its
    outcome depends on the [items] of that one page only (neither [has_more]
    nor any other page is consulted), and it processes exactly those
    records. *)
Theorem sync_single_page (integration : Integration) (srv srv' : server)
    (fault : faults) (db0 : store) (journal0 : list write) (page page' : Page)
    (Hpage : srv (last_sync_at integration) 1000%nat 0%nat = inr page)
    (Hpage' : srv' (last_sync_at integration) 1000%nat 0%nat = inr page')
    (Hitems : items page' = items page) :
  _sync_integration_nomenclature integration srv' fault db0 journal0 =
    _sync_integration_nomenclature integration srv fault db0 journal0 /\
  processed (run_state (_sync_integration_nomenclature integration srv fault db0 journal0)) =
    length (items page).
Proof.
  unfold _sync_integration_nomenclature, get_nomenclature.
  rewrite Hpage, Hpage', Hitems. split; [reflexivity|].
  destruct (fold_process_counts (i_id integration) (length (items page)) fault (items page)
              (Build_loop_state db0 journal0 0 0 0 [] [])) as (Hp & _ & _).
  simpl in Hp. destruct (last_sync_at integration); exact Hp.
Qed.

Lemma sync_single_page_witness :
  _sync_integration_nomenclature Scenarios.fresh_integration (Scenarios.one_page 100)
      Scenarios.no_faults ∅ [] =
    _sync_integration_nomenclature Scenarios.fresh_integration Scenarios.two_pages
      Scenarios.no_faults ∅ [] /\
  processed (run_state (_sync_integration_nomenclature Scenarios.fresh_integration
                          Scenarios.two_pages Scenarios.no_faults ∅ [])) =
    length (items (Build_Page (map Scenarios.remote_product (seq 1 100)) true)).
Proof.
  apply (sync_single_page Scenarios.fresh_integration Scenarios.two_pages
           (Scenarios.one_page 100) Scenarios.no_faults ∅ []
           (Build_Page (map Scenarios.remote_product (seq 1 100)) true)
           (Build_Page (map Scenarios.remote_product (seq 1 100)) false));
    reflexivity.
Defined.

(** C4 (counterexample). With 150 remote records served as 100 records and
    [has_more=true], then 50 records and [has_more=false], a run from an
    empty store processes and creates 100 records, not 150. *)
Lemma two_pages_counterexample :
  match _sync_integration_nomenclature Scenarios.fresh_integration Scenarios.two_pages
          Scenarios.no_faults ∅ [] with
  | inr r => processed_items (r_log r) = 100%nat /\ created_items (r_log r) = 100%nat /\
             created_items (r_log r) <> 150%nat
  | inl _ => False
  end.
Proof. vm_compute. split; [reflexivity|]. split; [reflexivity|]. discriminate. Qed.

(** [_should_update_product] on its own skips a record whose critical
    fields are unchanged and whose [new_data["sync_version"]] is not greater
    than the stored one. *)
Lemma should_update_product_unchanged (e : Product) (d : product_data) :
  name e = d_name d -> price e = d_price d -> quantity e = d_quantity d ->
  d_sync_version d <= sync_version e ->
  _should_update_product e d = false.
Proof.
  intros Hn Hp Hq Hv. unfold _should_update_product.
  rewrite Hn, Hp, Hq, String.eqb_refl, !Z.eqb_refl. simpl.
  apply Z.ltb_ge. exact Hv.
Qed.

(** Re-running a sync whose remote data did not change: the second run
    creates nothing and updates all three records. *)
Lemma rerun_unchanged_updates_all :
  match _sync_integration_nomenclature Scenarios.fresh_integration (Scenarios.one_page 3)
          Scenarios.no_faults ∅ [] with
  | inr r1 =>
      match _sync_integration_nomenclature Scenarios.fresh_integration (Scenarios.one_page 3)
              Scenarios.no_faults (db (r_state r1)) (journal (r_state r1)) with
      | inr r2 => created_items (r_log r2) = 0%nat /\ updated_items (r_log r2) = 3%nat
      | inl _ => False
      end
  | inl _ => False
  end.
Proof. vm_compute. split; reflexivity. Qed.

(** C1. In [_sync_integration_nomenclature], every existing record is
    updated: [product_data["sync_version"]] is built as
    [existing_product.sync_version + 1], so the version test of
    [_should_update_product] holds whatever the critical fields are and the
    Skip branch is never taken.  Re-running an unchanged sync from the
    records of a first run updates every record again. *)
Theorem sync_existing_never_skipped :
  (forall (integ : string) (op : OneCProduct) (e : Product),
     _should_update_product e (mk_product_data integ op (Some e)) = true) /\
  match _sync_integration_nomenclature Scenarios.fresh_integration (Scenarios.one_page 3)
          Scenarios.no_faults ∅ [] with
  | inr r1 =>
      match _sync_integration_nomenclature Scenarios.fresh_integration (Scenarios.one_page 3)
              Scenarios.no_faults (db (r_state r1)) (journal (r_state r1)) with
      | inr r2 => created_items (r_log r2) = 0%nat /\ updated_items (r_log r2) = 3%nat
      | inl _ => False
      end
  | inl _ => False
  end.
Proof. split; [exact should_update_existing | exact rerun_unchanged_updates_all]. Qed.

Lemma record_success_counters_ok (now : Z) (i : Integration) :
  counters_ok i -> counters_ok (record_success now i).
Proof. unfold counters_ok, record_success. simpl. lia. Qed.

(** C3. The failure path of [sync_nomenclature] increments [failed_syncs]
    but not [total_syncs]: a fresh integration (all counters 0) whose first
    run fails ends with [successful_syncs + failed_syncs = 1 > 0 =
    total_syncs]. *)
Theorem failed_sync_breaks_counter_invariant :
  counters_ok Scenarios.fresh_integration /\
  ~ counters_ok (fst (fst (sync_one 0 "Connection failed" Scenarios.fresh_integration
                             Scenarios.server_down Scenarios.no_faults ∅ []))).
Proof. unfold counters_ok. simpl. lia. Qed.

(** The store effect of one iteration: nothing, a create of a new key, or
    an update of the existing record under the record's key. *)
Lemma process_product_store (integ : string) (total : nat) (fault : faults)
    (s : loop_state) (op : OneCProduct) :
  let s' := process_product integ total fault s op in
  let k := (integ, op_id op) in
  (db s' = db s /\ journal s' = journal s) \/
  (db s !! k = None /\
   db s' = <[k := product_of_data (mk_product_data integ op None)]> (db s) /\
   journal s' = journal s ++ [WCreate k]) \/
  (exists e, db s !! k = Some e /\
   db s' = <[k := product_of_data (mk_product_data integ op (Some e))]> (db s) /\
   journal s' = journal s ++ [WUpdate k]).
Proof.
  unfold process_product; simpl.
  destruct (fault (S (processed s))) as [[| |]|] eqn:F; simpl; [left; auto|..];
    unfold get_product_by_external_id;
    destruct (db s !! (integ, op_id op)) as [e|] eqn:Hk; simpl;
    try rewrite should_update_existing; simpl; try (left; auto; fail);
    try (match goal with
         | |- context [progress_and_commit ?t ?s'] =>
             destruct (progress_and_commit_counters t s') as (Hdb&Hj&_&_&_&_);
             rewrite Hdb, Hj
         end);
    simpl; first [ right; left; auto; fail | right; right; eauto; fail ].
Qed.

Lemma count_upd_app (k : key) (j : list write) (w : write) :
  count_upd k (j ++ [w]) =
    (count_upd k j + match w with WUpdate k' => if bool_decide (k' = k) then 1 else 0
                                 | WCreate _ => 0 end)%nat.
Proof.
  unfold count_upd. rewrite List.filter_app, length_app. simpl.
  destruct w as [k'|k']; simpl; [lia|]. destruct (bool_decide (k' = k)); simpl; lia.
Qed.

Lemma process_product_version_inv (integ : string) (total : nat) (fault : faults)
    (s : loop_state) (op : OneCProduct) :
  version_inv (db s) (journal s) ->
  version_inv (db (process_product integ total fault s op))
              (journal (process_product integ total fault s op)).
Proof.
  intros Hinv.
  destruct (process_product_store integ total fault s op)
    as [[-> ->] | [(Hnone & -> & ->) | (e & Hsome & -> & ->)]]; [exact Hinv|..];
    intros k; rewrite count_upd_app; specialize (Hinv k);
    destruct (decide (k = (integ, op_id op))) as [->|Hne].
  - rewrite lookup_insert_eq. rewrite Hnone in Hinv. simpl. rewrite Hinv. reflexivity.
  - rewrite lookup_insert_ne by congruence. now rewrite Nat.add_0_r.
  - rewrite lookup_insert_eq. rewrite Hsome in Hinv. simpl.
    rewrite bool_decide_eq_true_2 by reflexivity. lia.
  - rewrite lookup_insert_ne by congruence.
    rewrite bool_decide_eq_false_2 by congruence. now rewrite Nat.add_0_r.
Qed.

Lemma fold_process_version_inv (integ : string) (total : nat) (fault : faults) :
  forall (l : list OneCProduct) (s : loop_state),
  version_inv (db s) (journal s) ->
  version_inv (db (fold_left (process_product integ total fault) l s))
              (journal (fold_left (process_product integ total fault) l s)).
Proof.
  induction l as [|op l IH]; intros s Hinv; simpl; [exact Hinv|].
  apply IH. apply process_product_version_inv. exact Hinv.
Qed.

Lemma sync_runs_version_inv :
  forall (runs : list run_input) (db0 : store) (journal0 : list write),
  version_inv db0 journal0 ->
  version_inv (fst (sync_runs runs db0 journal0)) (snd (sync_runs runs db0 journal0)).
Proof.
  induction runs as [|r runs IH]; intros db0 journal0 Hinv; simpl; [exact Hinv|].
  unfold sync_one, _sync_integration_nomenclature, get_nomenclature.
  destruct (ri_server r (last_sync_at (ri_integration r)) 1000%nat 0%nat) as [e|page];
    simpl; [apply IH; exact Hinv|].
  destruct (last_sync_at (ri_integration r)); simpl;
    apply IH, fold_process_version_inv; exact Hinv.
Qed.

Lemma version_inv_empty : version_inv ∅ [].
Proof. intros k. rewrite lookup_empty. reflexivity. Qed.

(** C9. A created record gets [sync_version = 1]; an applied update writes
    the stored [sync_version + 1]; hence after any sequence of runs from an
    empty store, every record's [sync_version] is one more than the number
    of updates applied to it. *)
Theorem sync_version_counts_updates (runs : list run_input) :
  (forall (integ : string) (op : OneCProduct),
     d_sync_version (mk_product_data integ op None) = 1) /\
  (forall (integ : string) (op : OneCProduct) (e : Product),
     d_sync_version (mk_product_data integ op (Some e)) = sync_version e + 1) /\
  (forall (k : key) (p : Product), fst (sync_runs runs ∅ []) !! k = Some p ->
     sync_version p = 1 + Z.of_nat (count_upd k (snd (sync_runs runs ∅ [])))).
Proof.
  split; [reflexivity|]. split; [reflexivity|].
  intros k p Hk. pose proof (sync_runs_version_inv runs ∅ [] version_inv_empty k) as H.
  rewrite Hk in H. exact H.
Qed.

Lemma sync_version_counts_updates_witness :
  exists p, fst (sync_runs Scenarios.three_reruns ∅ []) !! ("integration-1", "p1") = Some p /\
    sync_version p = 1 + Z.of_nat (count_upd ("integration-1", "p1")
                                     (snd (sync_runs Scenarios.three_reruns ∅ []))) /\
    sync_version p = 3.
Proof.
  eexists. split; [reflexivity|]. split; [|reflexivity].
  apply (proj2 (proj2 (sync_version_counts_updates Scenarios.three_reruns))).
  reflexivity.
Defined.

End SyncProofs.

(* ===================================================================== *)
(** * Further properties of the sync task *)

Module SyncExtra.
Import Sync SyncProofs.

Lemma progress_and_commit_events (total : nat) (s : loop_state) :
  events (progress_and_commit total s) =
    events s ++
    (if Nat.eqb (Nat.modulo (processed s) 10) 0 then [SyncProgress (processed s) total] else []) ++
    (if Nat.eqb (Nat.modulo (processed s) 50) 0 then [Commit] else []).
Proof.
  unfold progress_and_commit.
  destruct (Nat.eqb (Nat.modulo (processed s) 10) 0);
  destruct (Nat.eqb (Nat.modulo (processed s) 50) 0); simpl;
    rewrite ?app_nil_r, <- ?app_assoc; reflexivity.
Qed.

Lemma process_product_events (integ : string) (total : nat) (fault : faults)
    (s : loop_state) (op : OneCProduct) :
  events (process_product integ total fault s op) =
    events s ++ record_events integ total fault (S (processed s)) op.
Proof.
  unfold process_product, record_events.
  destruct (fault (S (processed s))) as [[| |]|] eqn:F; simpl;
    [rewrite app_nil_r; reflexivity|..];
    destruct (get_product_by_external_id (db s) (op_id op) integ) as [e|]; simpl;
    try rewrite should_update_existing; simpl; rewrite ?app_nil_r; try reflexivity;
    rewrite progress_and_commit_events; simpl; rewrite <- app_assoc; reflexivity.
Qed.

Lemma fold_process_events (integ : string) (total : nat) (fault : faults) :
  forall (l : list OneCProduct) (s : loop_state),
  events (fold_left (process_product integ total fault) l s) =
    events s ++ concat (zip_with (record_events integ total fault)
                          (seq (S (processed s)) (length l)) l).
Proof.
  induction l as [|op l IH]; intros s; simpl.
  - rewrite app_nil_r. reflexivity.
  - rewrite IH, process_product_events.
    destruct (process_product_counts integ total fault s op) as (Hp & _ & _).
    rewrite Hp, <- app_assoc. reflexivity.
Qed.

(** X7. The events of one integration's run: when the page of [products] is
    fetched, the loop of [_sync_integration_nomenclature] issues, record by
    record in page order, the [record-updated] notification of every record
    that does not raise, followed by a progress notification when its
    position is a multiple of 10 and a commit when it is a multiple of 50;
    a record that raises issues nothing.  These are the run's events whether
    it then returns or raises at line 256. *)
Theorem sync_run_events (integration : Integration) (srv : server) (fault : faults)
    (db0 : store) (journal0 : list write) (products : list OneCProduct)
    (Hfetch : get_nomenclature srv (last_sync_at integration) 1000 0 = inr products) :
  events (run_state (_sync_integration_nomenclature integration srv fault db0 journal0)) =
    concat (zip_with (record_events (i_id integration) (length products) fault)
              (seq 1 (length products)) products).
Proof.
  unfold _sync_integration_nomenclature. rewrite Hfetch.
  destruct (last_sync_at integration); simpl;
    rewrite fold_process_events; reflexivity.
Qed.

Lemma sync_run_events_witness :
  get_nomenclature (Scenarios.one_page 12) (last_sync_at Scenarios.synced_integration) 1000 0
    = inr (map Scenarios.remote_product (seq 1 12)) /\
  events (run_state (_sync_integration_nomenclature Scenarios.synced_integration
                       (Scenarios.one_page 12) Scenarios.fifth_persist_fails ∅ [])) =
    concat (zip_with (record_events (i_id Scenarios.synced_integration) 12
                        Scenarios.fifth_persist_fails)
              (seq 1 12) (map Scenarios.remote_product (seq 1 12))).
Proof.
  split; [reflexivity|].
  exact (sync_run_events Scenarios.synced_integration (Scenarios.one_page 12)
           Scenarios.fifth_persist_fails ∅ [] (map Scenarios.remote_product (seq 1 12))
           eq_refl).
Defined.

Lemma fold_append_lookup {A St B C : Type} (f : St -> A -> St)
    (gb : St -> list B) (gc : St -> list C) (P : A -> B -> C -> Prop) :
  (forall s a, exists b c, gb (f s a) = gb s ++ [b] /\ gc (f s a) = gc s ++ [c] /\ P a b c) ->
  forall l s, exists bs cs,
    gb (fold_left f l s) = gb s ++ bs /\ gc (fold_left f l s) = gc s ++ cs /\
    length bs = length l /\ length cs = length l /\
    forall k a, l !! k = Some a -> exists b c, bs !! k = Some b /\ cs !! k = Some c /\ P a b c.
Proof.
  intros Hf. induction l as [|a l IH]; intros s; simpl.
  - exists [], []. rewrite !app_nil_r. repeat split; try reflexivity.
    intros k a H. discriminate.
  - destruct (Hf s a) as (b & c & Hb & Hc & HP).
    destruct (IH (f s a)) as (bs & cs & Hbs & Hcs & Lb & Lc & Hk).
    exists (b :: bs), (c :: cs). rewrite Hbs, Hcs, Hb, Hc, <- !app_assoc.
    repeat split; try reflexivity; simpl; try lia.
    intros [|k] a' H; simpl in H.
    + injection H as <-. exists b, c. auto.
    + exact (Hk k a' H).
Qed.

Lemma running_count_app (l1 l2 : list SyncLog) :
  length (List.filter (fun l => String.eqb (sl_status l) "running") (l1 ++ l2)) =
    (length (List.filter (fun l => String.eqb (sl_status l) "running") l1) +
     length (List.filter (fun l => String.eqb (sl_status l) "running") l2))%nat.
Proof. induction l1 as [|x l1 IH]; simpl; [reflexivity|]. destruct (String.eqb _ _); simpl; lia. Qed.

Lemma sync_task_step_outcome (now : Z) (str_e : sync_exc -> string)
    (st : task_state) (run : task_run) :
  exists i' l,
    ts_integrations (sync_task_step now str_e st run) = ts_integrations st ++ [i'] /\
    ts_logs (sync_task_step now str_e st run) = ts_logs st ++ [l] /\
    let i := tr_integration run in
    i_id i' = i_id i /\
    match get_nomenclature (tr_server run) (last_sync_at i) 1000 0 with
    | inl e =>
        sl_status l = "running" /\ processed_items l = 0%nat /\
        total_syncs i' = total_syncs i /\ successful_syncs i' = successful_syncs i /\
        failed_syncs i' = failed_syncs i + 1 /\ is_healthy i' = false /\
        last_error i' = Some (str_e (FetchError e)) /\ last_sync_at i' = last_sync_at i
    | inr _ =>
        match last_sync_at i with
        | None =>
            sl_status l = "completed" /\
            total_syncs i' = total_syncs i + 1 /\ successful_syncs i' = successful_syncs i + 1 /\
            failed_syncs i' = failed_syncs i /\ last_sync_at i' = Some now
        | Some _ =>
            sl_status l = "running" /\ processed_items l = 0%nat /\
            total_syncs i' = total_syncs i /\ successful_syncs i' = successful_syncs i /\
            failed_syncs i' = failed_syncs i + 1 /\ is_healthy i' = false /\
            last_error i' = Some (str_e DurationTypeError) /\ last_sync_at i' = last_sync_at i
        end
    end.
Proof.
  unfold sync_task_step, _sync_integration_nomenclature. cbv zeta.
  destruct (get_nomenclature (tr_server run) (last_sync_at (tr_integration run)) 1000 0)
    as [e|products]; [|destruct (last_sync_at (tr_integration run)) eqn:L]; simpl;
    (eexists _, _; split; [reflexivity|split; [reflexivity|]]); simpl; repeat split;
    assumption.
Qed.

Lemma sync_task_step_totals (now : Z) (str_e : sync_exc -> string)
    (st : task_state) (run : task_run) :
  task_totals_ok st -> task_totals_ok (sync_task_step now str_e st run).
Proof.
  unfold task_totals_ok, sync_task_step, _sync_integration_nomenclature.
  intros (Hp & Hc & Hu & He).
  cbv zeta.
  destruct (get_nomenclature (tr_server run) (last_sync_at (tr_integration run)) 1000 0)
    as [e|products]; [|destruct (last_sync_at (tr_integration run))]; simpl;
    rewrite !sum_list_with_app, running_count_app, length_app; simpl; lia.
Qed.

Lemma fold_sync_task_totals (now : Z) (str_e : sync_exc -> string) :
  forall runs st, task_totals_ok st ->
  task_totals_ok (fold_left (sync_task_step now str_e) runs st).
Proof.
  induction runs as [|run runs IH]; intros st H; simpl; [exact H|].
  apply IH, sync_task_step_totals, H.
Qed.

(** X8. The totals [sync_nomenclature] returns: with no integration to sync the
    task is skipped; otherwise [total_processed], [total_created] and
    [total_updated] are the sums of the corresponding counters of the
    SyncLogs the task opened, and the [errors] list has one entry per failed
    record of the completed runs plus one per integration whose run failed,
    whose SyncLog is the one left ["running"]. *)
Theorem sync_task_totals (now : Z) (str_e : sync_exc -> string)
    (runs : list task_run) (db0 : store) (journal0 : list write) :
  match sync_nomenclature now str_e runs db0 journal0 with
  | TaskSkipped => runs = []
  | TaskCompleted st =>
      total_processed st = sum_list_with processed_items (ts_logs st) /\
      total_created st = sum_list_with created_items (ts_logs st) /\
      total_updated st = sum_list_with updated_items (ts_logs st) /\
      length (task_errors st) =
        (sum_list_with failed_items (ts_logs st) +
         length (List.filter (fun l => String.eqb (sl_status l) "running") (ts_logs st)))%nat
  end.
Proof.
  unfold sync_nomenclature. destruct runs as [|run runs]; [reflexivity|].
  apply fold_sync_task_totals. unfold task_totals_ok. simpl. repeat split.
Qed.

(** X9. What [sync_nomenclature] does to each integration: the task opens one
    SyncLog per integration, in order, and the [k]-th integration's run
    depends on its fetch and its [last_sync_at] only. When the fetch raises,
    or when it succeeds but [last_sync_at] is set (the [TypeError] of line
    256), its SyncLog stays ["running"] with no processed record,
    [failed_syncs] grows by one, [total_syncs] and [successful_syncs] are
    unchanged, the integration is marked unhealthy with the error text and
    [last_sync_at] is kept. When the fetch succeeds and [last_sync_at] is
    unset, its SyncLog is ["completed"], [total_syncs] and
    [successful_syncs] grow by one, [failed_syncs] is unchanged and
    [last_sync_at] becomes the current time. *)
Theorem sync_task_outcomes (now : Z) (str_e : sync_exc -> string)
    (runs : list task_run) (db0 : store) (journal0 : list write) :
  match sync_nomenclature now str_e runs db0 journal0 with
  | TaskSkipped => runs = []
  | TaskCompleted st =>
      length (ts_integrations st) = length runs /\ length (ts_logs st) = length runs /\
      forall k run, runs !! k = Some run ->
      exists i' l, ts_integrations st !! k = Some i' /\ ts_logs st !! k = Some l /\
        let i := tr_integration run in
        i_id i' = i_id i /\
        match get_nomenclature (tr_server run) (last_sync_at i) 1000 0 with
        | inl e =>
            sl_status l = "running" /\ processed_items l = 0%nat /\
            total_syncs i' = total_syncs i /\ successful_syncs i' = successful_syncs i /\
            failed_syncs i' = failed_syncs i + 1 /\ is_healthy i' = false /\
            last_error i' = Some (str_e (FetchError e)) /\ last_sync_at i' = last_sync_at i
        | inr _ =>
            match last_sync_at i with
            | None =>
                sl_status l = "completed" /\
                total_syncs i' = total_syncs i + 1 /\ successful_syncs i' = successful_syncs i + 1 /\
                failed_syncs i' = failed_syncs i /\ last_sync_at i' = Some now
            | Some _ =>
                sl_status l = "running" /\ processed_items l = 0%nat /\
                total_syncs i' = total_syncs i /\ successful_syncs i' = successful_syncs i /\
                failed_syncs i' = failed_syncs i + 1 /\ is_healthy i' = false /\
                last_error i' = Some (str_e DurationTypeError) /\ last_sync_at i' = last_sync_at i
            end
        end
  end.
Proof.
  unfold sync_nomenclature. destruct runs as [|run0 runs0]; [reflexivity|].
  destruct (fold_append_lookup (sync_task_step now str_e) ts_integrations ts_logs _
              (fun st run => sync_task_step_outcome now str_e st run) (run0 :: runs0)
              (Build_task_state db0 journal0 0 0 0 [] [] []))
    as (bs & cs & Hb & Hc & Lb & Lc & Hk).
  change (ts_integrations (Build_task_state db0 journal0 0 0 0 [] [] [])) with (@nil Integration) in Hb.
  change (ts_logs (Build_task_state db0 journal0 0 0 0 [] [] [])) with (@nil SyncLog) in Hc.
  rewrite Hb, Hc. auto.
Qed.

(** X10. Successive runs of [check_integrations_health] on one enabled
    integration, whose endpoint answers as [srvs] in order: the status
    becomes [ERROR] as soon as one check fails and is never set back, it is
    left as it was when every check succeeds, and [is_healthy] holds the
    result of the last check. *)
Theorem health_checks_status (srvs : list (nat -> OneCClient.attempt_outcome)) :
  forall row0 : HealthRow,
  let row := fold_left (fun row srv => check_integration_health srv row) srvs row0 in
  h_status row = (if forallb (OneCClient.health_check 3) srvs then h_status row0 else ERROR) /\
  h_is_healthy row =
    match last srvs with
    | Some srv => OneCClient.health_check 3 srv
    | None => h_is_healthy row0
    end.
Proof.
  induction srvs as [|srv srvs IH]; intros row0; simpl; [split; reflexivity|].
  destruct (IH (check_integration_health srv row0)) as [Hs Hh].
  split.
  - rewrite Hs. unfold check_integration_health; simpl.
    destruct (OneCClient.health_check 3 srv), (forallb (OneCClient.health_check 3) srvs);
      reflexivity.
  - rewrite Hh. destruct srvs as [|srv' srvs]; [reflexivity|].
    change (last (srv :: srv' :: srvs)) with (last (srv' :: srvs)).
    destruct (last (srv' :: srvs)) eqn:E; [reflexivity|].
    apply last_None in E. discriminate.
Qed.

End SyncExtra.

(* ===================================================================== *)
(** * Properties of the ConnectionManager *)
(* ===================================================================== *)

Module BroadcasterProofs.
Import Broadcaster.

Lemma discard_lookup (c : string) (w : ws) (ac : gmap string (gset ws)) (ch : string) :
  discard c w ac !! ch =
    if decide (c = ch) then (fun s => s ∖ {[w]}) <$> ac !! ch else ac !! ch.
Proof.
  unfold discard. destruct (decide (c = ch)) as [<-|Hne].
  - destruct (ac !! c) eqn:E; [by rewrite lookup_insert_eq|done].
  - destruct (ac !! c); [by rewrite lookup_insert_ne|done].
Qed.

Lemma add_to_lookup (c : string) (w : ws) (ac : gmap string (gset ws)) (ch : string) :
  add_to c w ac !! ch =
    if decide (c = ch) then (fun s => s ∪ {[w]}) <$> ac !! ch else ac !! ch.
Proof.
  unfold add_to. destruct (decide (c = ch)) as [<-|Hne].
  - destruct (ac !! c) eqn:E; [by rewrite lookup_insert_eq|done].
  - destruct (ac !! c); [by rewrite lookup_insert_ne|done].
Qed.

Lemma fold_discard_lookup (w : ws) (ch : string) :
  forall (cs : list string) (ac : gmap string (gset ws)),
  fold_left (fun ac c => discard c w ac) cs ac !! ch =
    if decide (ch ∈ cs) then (fun s => s ∖ {[w]}) <$> ac !! ch else ac !! ch.
Proof.
  induction cs as [|c cs IH]; intros ac; simpl.
  - destruct (decide (ch ∈ [])) as [H|]; [inversion H|done].
  - rewrite IH, discard_lookup.
    repeat case_decide; subst; try set_solver;
      destruct (ac !! ch); simpl; try done; f_equal; set_solver.
Qed.

Lemma fold_add_lookup (w : ws) (ch : string) :
  forall (cs : list string) (ac : gmap string (gset ws)),
  fold_left (fun ac c => add_to c w ac) cs ac !! ch =
    if decide (ch ∈ cs) then (fun s => s ∪ {[w]}) <$> ac !! ch else ac !! ch.
Proof.
  induction cs as [|c cs IH]; intros ac; simpl.
  - destruct (decide (ch ∈ [])) as [H|]; [inversion H|done].
  - rewrite IH, add_to_lookup.
    repeat case_decide; subst; try set_solver;
      destruct (ac !! ch); simpl; try done; f_equal; set_solver.
Qed.

Lemma send_loop (msg : message) (fails : ws -> bool) :
  forall (l : list ws) (m : manager) (D : gset ws),
  let r := fold_left (send_one msg fails) l (m, D) in
  active_connections r.1 = active_connections m /\
  connection_info r.1 = connection_info m /\
  outbox r.1 = outbox m ++ map (fun c => (c, msg)) (List.filter (fun c => negb (fails c)) l) /\
  (forall c, c ∈ r.2 <-> c ∈ D \/ (In c l /\ fails c = true)).
Proof.
  induction l as [|a l IH]; intros m D; simpl.
  - rewrite app_nil_r. split; [done|split; [done|split; [done|]]].
    intros x. split; [intros H; left; exact H|intros [H|[[] _]]; exact H].
  - destruct (fails a) eqn:Fa; simpl;
      match goal with
      | |- context [fold_left _ l (?m', ?D')] => destruct (IH m' D') as (Ha & Hi & Ho & Hd)
      end; simpl in *; rewrite Ha, Hi, Ho;
      (split; [done|split; [done|split]]).
  1: done.
  1: intros x; rewrite Hd, elem_of_union, elem_of_singleton; split;
       [intros [[H | ->] | [H1 H2]];
          [left; exact H|right; split; [left; reflexivity|exact Fa]
          |right; split; [right; exact H1|exact H2]]
       |intros [H | [[<- | H1] H2]];
          [left; left; exact H|left; right; reflexivity|right; split; assumption]].
  1: rewrite <- app_assoc; reflexivity.
  1: intros x; rewrite Hd; split;
       [intros [H|[H1 H2]]; [left; exact H|right; split; [right; exact H1|exact H2]]
       |intros [H | [[<- | H1] H2]]; [left; exact H|congruence|right; split; assumption]].
Qed.

Lemma disconnect_outbox (w : ws) (m : manager) : outbox (disconnect w m) = outbox m.
Proof. unfold disconnect. destruct (connection_info m !! w); reflexivity. Qed.

Lemma fold_disconnect_outbox :
  forall (l : list ws) (m : manager),
  outbox (fold_left (fun m' c => disconnect c m') l m) = outbox m.
Proof.
  induction l as [|c l IH]; intros m; simpl; [done|]. rewrite IH. apply disconnect_outbox.
Qed.

Lemma disconnect_shrinks (w : ws) (m : manager) (ch : string) (s' : gset ws) :
  active_connections (disconnect w m) !! ch = Some s' ->
  exists s, active_connections m !! ch = Some s /\ s' ⊆ s.
Proof.
  unfold disconnect. destruct (connection_info m !! w) as [cs|]; simpl; [|eauto].
  rewrite discard_lookup, fold_discard_lookup.
  destruct (active_connections m !! ch) as [s|]; repeat case_decide; simpl;
    intros Hl; inversion Hl; eexists; split; eauto; set_solver.
Qed.

Lemma disconnect_removes (w : ws) (m : manager) :
  registries_wf m ->
  forall ch s, active_connections (disconnect w m) !! ch = Some s -> w ∉ s.
Proof.
  intros Hwf ch s. unfold disconnect.
  destruct (connection_info m !! w) as [cs|] eqn:Hi; simpl.
  - rewrite discard_lookup, fold_discard_lookup.
    destruct (active_connections m !! ch) as [s0|] eqn:E; repeat case_decide; simpl;
      intros Hl; inversion Hl; subst; try set_solver.
    intros Hw. destruct (Hwf ch s w E Hw) as (cs' & Hcs & [Hall|Hin]);
      rewrite Hi in Hcs; inversion Hcs; subst; contradiction.
  - intros E Hw. destruct (Hwf ch s w E Hw) as (cs' & Hcs & _). congruence.
Qed.

Lemma disconnect_wf (w : ws) (m : manager) :
  registries_wf m -> registries_wf (disconnect w m).
Proof.
  intros Hwf ch s' v Hs' Hv.
  destruct (disconnect_shrinks w m ch s' Hs') as (s & Hs & Hsub).
  assert (v <> w) as Hne by (intros ->; exact (disconnect_removes w m Hwf ch s' Hs' Hv)).
  destruct (Hwf ch s v Hs (Hsub v Hv)) as (cs & Hcs & Hch).
  unfold disconnect in *. destruct (connection_info m !! w) as [cs0|]; simpl; [|eauto].
  exists cs. rewrite lookup_delete_ne by congruence. auto.
Qed.

Lemma fold_disconnect_absent (w : ws) :
  forall (l : list ws) (m : manager),
  (forall ch s, active_connections m !! ch = Some s -> w ∉ s) ->
  forall ch s, active_connections (fold_left (fun m' c => disconnect c m') l m) !! ch = Some s ->
  w ∉ s.
Proof.
  induction l as [|c l IH]; intros m Habs; simpl; [exact Habs|].
  apply IH. intros ch s Hs Hw.
  destruct (disconnect_shrinks c m ch s Hs) as (s0 & Hs0 & Hsub).
  exact (Habs ch s0 Hs0 (Hsub w Hw)).
Qed.

Lemma fold_disconnect_wf :
  forall (l : list ws) (m : manager),
  registries_wf m -> registries_wf (fold_left (fun m' c => disconnect c m') l m).
Proof.
  induction l as [|c l IH]; intros m Hwf; simpl; [exact Hwf|].
  apply IH. apply disconnect_wf. exact Hwf.
Qed.

Lemma fold_disconnect_removes (w : ws) :
  forall (l : list ws) (m : manager), registries_wf m -> In w l ->
  forall ch s, active_connections (fold_left (fun m' c => disconnect c m') l m) !! ch = Some s ->
  w ∉ s.
Proof.
  induction l as [|c l IH]; intros m Hwf Hin; simpl; [destruct Hin|].
  destruct Hin as [->|Hin].
  - apply fold_disconnect_absent. apply disconnect_removes. exact Hwf.
  - apply IH; [apply disconnect_wf; exact Hwf|exact Hin].
Qed.

Lemma wf_same_registries (m m' : manager) :
  active_connections m' = active_connections m ->
  connection_info m' = connection_info m ->
  registries_wf m -> registries_wf m'.
Proof. intros Ha Hi Hwf. unfold registries_wf. rewrite Ha, Hi. exact Hwf. Qed.

(** Every connection registered on the channel whose send succeeds gets the
    message. *)
Lemma broadcast_delivers (m : manager) (msg : message) (channel : string)
    (fails : ws -> bool) (conns : gset ws) (w : ws) :
  active_connections m !! channel = Some conns -> w ∈ conns -> fails w = false ->
  (w, msg) ∈ outbox (_broadcast_internal msg channel fails m).
Proof.
  intros Hch Hw Hf. unfold _broadcast_internal. rewrite Hch.
  destruct (send_loop msg fails (elements conns) m ∅) as (_ & _ & Ho & _).
  destruct (fold_left (send_one msg fails) (elements conns) (m, ∅)) as [m1 D].
  simpl in Ho. rewrite fold_disconnect_outbox, Ho.
  apply list_elem_of_In. apply in_or_app. right.
  apply (in_map (fun c => (c, msg))). apply filter_In. rewrite Hf. split; [|reflexivity].
  apply list_elem_of_In. apply elem_of_elements. exact Hw.
Qed.

Lemma add_to_is_Some (c : string) (w : ws) (ac : gmap string (gset ws)) (ch : string) :
  is_Some (add_to c w ac !! ch) <-> is_Some (ac !! ch).
Proof. rewrite add_to_lookup. case_decide; [apply fmap_is_Some|done]. Qed.

Lemma discard_is_Some (c : string) (w : ws) (ac : gmap string (gset ws)) (ch : string) :
  is_Some (discard c w ac !! ch) <-> is_Some (ac !! ch).
Proof. rewrite discard_lookup. case_decide; [apply fmap_is_Some|done]. Qed.

Lemma subscribe_fold (w : ws) :
  forall (chs : list string) (ac : gmap string (gset ws)) (cur : gset string),
  let r := fold_left (subscribe_step w) chs (ac, cur) in
  (forall ch, r.1 !! ch =
     if decide (ch ∈ chs) then (fun s => s ∪ {[w]}) <$> ac !! ch else ac !! ch) /\
  (forall ch, ch ∈ cur \/ (ch ∈ chs /\ is_Some (ac !! ch)) -> ch ∈ r.2).
Proof.
  induction chs as [|a chs IH]; intros ac cur; cbn [fold_left].
  - simpl. split; intros ch.
    + destruct (decide (ch ∈ [])) as [H|]; [inversion H|done].
    + intros [H|[H _]]; [exact H|inversion H].
  - assert (subscribe_step w (ac, cur) a =
            if decide (is_Some (ac !! a)) then (add_to a w ac, cur ∪ {[a]}) else (ac, cur))
      as -> by reflexivity.
    destruct (decide (is_Some (ac !! a))) as [Hk|Hk];
      [destruct (IH (add_to a w ac) (cur ∪ {[a]})) as [H1 H2]
      |destruct (IH ac cur) as [H1 H2]]; split; intros ch.
    + rewrite H1, add_to_lookup.
      repeat case_decide; subst; try set_solver;
        destruct (ac !! ch); simpl; try done; f_equal; set_solver.
    + intros Hc. apply H2. rewrite add_to_is_Some.
      destruct Hc as [Hc|[Hc Hs]]; [left; set_solver|].
      apply elem_of_cons in Hc as [->|Hc]; [left; set_solver|right; auto].
    + assert (ac !! a = None) as Ha by (apply eq_None_not_Some; exact Hk).
      rewrite H1. repeat case_decide; try set_solver.
      assert (ch = a) as -> by set_solver. rewrite Ha. reflexivity.
    + intros Hc. apply H2.
      destruct Hc as [Hc|[Hc Hs]]; [left; exact Hc|].
      apply elem_of_cons in Hc as [->|Hc]; [contradiction|right; auto].
Qed.

Lemma unsubscribe_fold (w : ws) :
  forall (chs : list string) (ac : gmap string (gset ws)) (cur : gset string),
  let r := fold_left (unsubscribe_step w) chs (ac, cur) in
  (forall ch, r.1 !! ch =
     if decide (ch ∈ chs) then (fun s => s ∖ {[w]}) <$> ac !! ch else ac !! ch) /\
  (forall ch, ch ∈ cur -> ch ∉ chs -> ch ∈ r.2).
Proof.
  induction chs as [|a chs IH]; intros ac cur; cbn [fold_left].
  - simpl. split; intros ch.
    + destruct (decide (ch ∈ [])) as [H|]; [inversion H|done].
    + intros H _. exact H.
  - assert (unsubscribe_step w (ac, cur) a =
            if decide (is_Some (ac !! a)) then (discard a w ac, cur ∖ {[a]}) else (ac, cur))
      as -> by reflexivity.
    destruct (decide (is_Some (ac !! a))) as [Hk|Hk];
      [destruct (IH (discard a w ac) (cur ∖ {[a]})) as [H1 H2]
      |destruct (IH ac cur) as [H1 H2]]; split; intros ch.
    + rewrite H1, discard_lookup.
      repeat case_decide; subst; try set_solver;
        destruct (ac !! ch); simpl; try done; f_equal; set_solver.
    + intros Hc Hn. apply H2; set_solver.
    + assert (ac !! a = None) as Ha by (apply eq_None_not_Some; exact Hk).
      rewrite H1. repeat case_decide; try set_solver.
      assert (ch = a) as -> by set_solver. rewrite Ha. reflexivity.
    + intros Hc Hn. apply H2; set_solver.
Qed.

Lemma init_wf : registries_wf init.
Proof.
  intros ch s w H Hw. unfold init in H. cbn [active_connections] in H.
  apply elem_of_list_to_map_2 in H.
  repeat (apply elem_of_cons in H as [H|H]; [injection H as -> ->; set_solver|]).
  apply elem_of_nil in H. contradiction.
Qed.

Lemma connect_wf (w : ws) (chs : list string) (m : manager) :
  registries_wf m -> connection_info m !! w = None -> registries_wf (connect w chs m).
Proof.
  intros Hwf Hfresh ch s' v Hs' Hv. unfold connect in *. cbn [active_connections connection_info] in *.
  rewrite add_to_lookup, fold_add_lookup in Hs'.
  destruct (active_connections m !! ch) as [s|] eqn:E; [|repeat case_decide; discriminate].
  assert (Hcase : v ∈ s \/ (v = w /\ (ch = "all" \/ ch ∈ chs))).
  { repeat case_decide; simpl in Hs'; injection Hs' as <-; subst; set_solver. }
  destruct Hcase as [Hin | [-> Hch]].
  - destruct (Hwf ch s v E Hin) as (cs & Hcs & Hc). exists cs.
    rewrite lookup_insert_ne; [auto|]. intros <-. congruence.
  - exists chs. rewrite lookup_insert_eq. auto.
Qed.

Lemma subscribe_wf (w : ws) (chs : list string) (m : manager) :
  registries_wf m -> registries_wf (handle_subscribe w chs m).
Proof.
  intros Hwf. unfold handle_subscribe.
  destruct (connection_info m !! w) as [current|] eqn:Hi; [|exact Hwf].
  destruct (subscribe_fold w chs (active_connections m) (list_to_set current)) as [H1 H2].
  destruct (fold_left (subscribe_step w) chs (active_connections m, list_to_set current))
    as [ac cur]. cbn [fst snd] in H1, H2.
  intros ch s' v Hs' Hv. unfold set_registries in *. cbn [active_connections connection_info] in *.
  rewrite H1 in Hs'.
  destruct (active_connections m !! ch) as [s|] eqn:E; [|case_decide; discriminate].
  destruct (decide (v = w)) as [->|Hne].
  - exists (elements cur). rewrite lookup_insert_eq. split; [done|].
    destruct (decide (ch = "all")) as [Hall|Hna]; [left; exact Hall|right].
    apply elem_of_elements, H2.
    destruct (decide (ch ∈ chs)) as [Hc|Hc].
    + right. split; [exact Hc|rewrite E; eauto].
    + left. simpl in Hs'. injection Hs' as <-.
      destruct (Hwf ch s w E Hv) as (cs & Hcs & [Hall|Hin]); [contradiction|].
      rewrite Hi in Hcs. injection Hcs as <-. apply elem_of_list_to_set. exact Hin.
  - rewrite lookup_insert_ne by congruence. apply (Hwf ch s v E).
    case_decide; simpl in Hs'; injection Hs' as <-; set_solver.
Qed.

Lemma unsubscribe_wf (w : ws) (chs : list string) (m : manager) :
  registries_wf m -> registries_wf (handle_unsubscribe w chs m).
Proof.
  intros Hwf. unfold handle_unsubscribe.
  destruct (connection_info m !! w) as [current|] eqn:Hi; [|exact Hwf].
  destruct (unsubscribe_fold w chs (active_connections m) (list_to_set current)) as [H1 H2].
  destruct (fold_left (unsubscribe_step w) chs (active_connections m, list_to_set current))
    as [ac cur]. cbn [fst snd] in H1, H2.
  intros ch s' v Hs' Hv. unfold set_registries in *. cbn [active_connections connection_info] in *.
  rewrite H1 in Hs'.
  destruct (active_connections m !! ch) as [s|] eqn:E; [|case_decide; discriminate].
  destruct (decide (v = w)) as [->|Hne].
  - exists (elements cur). rewrite lookup_insert_eq. split; [done|].
    destruct (decide (ch ∈ chs)) as [Hc|Hc].
    + simpl in Hs'. injection Hs' as <-. set_solver.
    + simpl in Hs'. injection Hs' as <-.
      destruct (Hwf ch s w E Hv) as (cs & Hcs & [Hall|Hin]); [left; exact Hall|right].
      rewrite Hi in Hcs. injection Hcs as <-.
      apply elem_of_elements, H2; [apply elem_of_list_to_set; exact Hin|exact Hc].
  - rewrite lookup_insert_ne by congruence. apply (Hwf ch s v E).
    case_decide; simpl in Hs'; injection Hs' as <-; set_solver.
Qed.

Lemma broadcast_wf (msg : message) (channel : string) (fails : ws -> bool) (m : manager) :
  registries_wf m -> registries_wf (_broadcast_internal msg channel fails m).
Proof.
  intros Hwf. unfold _broadcast_internal.
  destruct (active_connections m !! channel) as [conns|]; [|exact Hwf].
  destruct (send_loop msg fails (elements conns) m ∅) as (Ha & Hi & _ & _).
  destruct (fold_left (send_one msg fails) (elements conns) (m, ∅)) as [m1 D].
  apply fold_disconnect_wf. exact (wf_same_registries m m1 Ha Hi Hwf).
Qed.

(** Registrations stay backed by the connection info along any run in which
    each connection is connected once. *)
Lemma run_ops_wf :
  forall (ops : list op) (m : manager),
  registries_wf m -> connects_fresh ops m = true -> registries_wf (run_ops ops m).
Proof.
  unfold run_ops. induction ops as [|o ops IH]; intros m Hwf Hf; simpl in *; [exact Hwf|].
  apply andb_prop in Hf as [Ho Hr]. apply IH; [|exact Hr].
  destruct o; simpl in *.
  - apply connect_wf; [exact Hwf|]. apply bool_decide_eq_true_1 in Ho. exact Ho.
  - apply disconnect_wf. exact Hwf.
  - apply subscribe_wf. exact Hwf.
  - apply unsubscribe_wf. exact Hwf.
  - apply broadcast_wf. exact Hwf.
Qed.

(** The connections whose send fails end up in no registry. *)
Lemma broadcast_removes_failed (m : manager) (msg : message) (channel : string)
    (fails : ws -> bool) (conns : gset ws) (w : ws) :
  registries_wf m ->
  active_connections m !! channel = Some conns -> w ∈ conns -> fails w = true ->
  forall ch s, active_connections (_broadcast_internal msg channel fails m) !! ch = Some s ->
  w ∉ s.
Proof.
  intros Hwf Hch Hw Hf. unfold _broadcast_internal. rewrite Hch.
  destruct (send_loop msg fails (elements conns) m ∅) as (Ha & Hi & _ & Hd).
  destruct (fold_left (send_one msg fails) (elements conns) (m, ∅)) as [m1 D].
  cbn [fst snd] in Ha, Hi, Hd.
  apply fold_disconnect_removes; [exact (wf_same_registries m m1 Ha Hi Hwf)|].
  apply list_elem_of_In, elem_of_elements, Hd. right. split; [|exact Hf].
  apply list_elem_of_In, elem_of_elements. exact Hw.
Qed.

Lemma fold_add_is_Some (w : ws) (cs : list string) (ac : gmap string (gset ws)) (ch : string) :
  is_Some (fold_left (fun ac c => add_to c w ac) cs ac !! ch) <-> is_Some (ac !! ch).
Proof. rewrite fold_add_lookup. case_decide; [apply fmap_is_Some|done]. Qed.

Lemma fold_discard_is_Some (w : ws) (cs : list string) (ac : gmap string (gset ws)) (ch : string) :
  is_Some (fold_left (fun ac c => discard c w ac) cs ac !! ch) <-> is_Some (ac !! ch).
Proof. rewrite fold_discard_lookup. case_decide; [apply fmap_is_Some|done]. Qed.

Lemma disconnect_keys (w : ws) (m : manager) (ch : string) :
  is_Some (active_connections (disconnect w m) !! ch) <-> is_Some (active_connections m !! ch).
Proof.
  unfold disconnect. destruct (connection_info m !! w); [|done].
  cbn [active_connections]. rewrite discard_is_Some. apply fold_discard_is_Some.
Qed.

Lemma fold_disconnect_keys (ch : string) :
  forall (l : list ws) (m : manager),
  is_Some (active_connections (fold_left (fun m' c => disconnect c m') l m) !! ch) <->
  is_Some (active_connections m !! ch).
Proof.
  induction l as [|c l IH]; intros m; simpl; [done|]. rewrite IH. apply disconnect_keys.
Qed.

(** No operation adds or removes a channel of [active_connections]. *)
Lemma step_keys (m : manager) (o : op) (ch : string) :
  is_Some (active_connections (step m o) !! ch) <-> is_Some (active_connections m !! ch).
Proof.
  destruct o as [w chs|w|w chs|w chs|msg channel fails]; simpl.
  - unfold connect. cbn [active_connections]. rewrite add_to_is_Some. apply fold_add_is_Some.
  - apply disconnect_keys.
  - unfold handle_subscribe. destruct (connection_info m !! w) as [current|]; [|done].
    destruct (subscribe_fold w chs (active_connections m) (list_to_set current)) as [H1 _].
    destruct (fold_left (subscribe_step w) chs (active_connections m, list_to_set current))
      as [ac cur]. cbn [fst] in H1. unfold set_registries. cbn [active_connections].
    rewrite H1. case_decide; [apply fmap_is_Some|done].
  - unfold handle_unsubscribe. destruct (connection_info m !! w) as [current|]; [|done].
    destruct (unsubscribe_fold w chs (active_connections m) (list_to_set current)) as [H1 _].
    destruct (fold_left (unsubscribe_step w) chs (active_connections m, list_to_set current))
      as [ac cur]. cbn [fst] in H1. unfold set_registries. cbn [active_connections].
    rewrite H1. case_decide; [apply fmap_is_Some|done].
  - unfold _broadcast_internal. destruct (active_connections m !! channel) as [conns|]; [|done].
    destruct (send_loop msg fails (elements conns) m ∅) as (Ha & _ & _ & _).
    destruct (fold_left (send_one msg fails) (elements conns) (m, ∅)) as [m1 D].
    cbn [fst] in Ha. rewrite fold_disconnect_keys, Ha. done.
Qed.

Lemma run_ops_keys (ch : string) :
  forall (ops : list op) (m : manager),
  is_Some (active_connections (run_ops ops m) !! ch) <-> is_Some (active_connections m !! ch).
Proof.
  unfold run_ops. induction ops as [|o ops IH]; intros m; simpl; [done|].
  rewrite IH. apply step_keys.
Qed.

Lemma all_inv_lookup (m : manager) :
  all_inv m -> active_connections m !! "all" = Some (all_registry m).
Proof. intros [[s Hs] _]. unfold all_registry. rewrite Hs. reflexivity. Qed.

Lemma init_all_inv : all_inv init.
Proof.
  split; [eexists; vm_compute; reflexivity|].
  intros v. assert (all_registry init = ∅) as -> by (vm_compute; reflexivity).
  unfold init. cbn [connection_info]. rewrite lookup_empty.
  split; [intros [x Hx]; discriminate|set_solver].
Qed.

Lemma connect_all_inv (w : ws) (chs : list string) (m : manager) :
  all_inv m -> all_inv (connect w chs m).
Proof.
  intros Hinv. pose proof (all_inv_lookup m Hinv) as Hs. destruct Hinv as [_ Hiff].
  assert (Hc : active_connections (connect w chs m) !! "all" = Some (all_registry m ∪ {[w]})).
  { unfold connect. cbn [active_connections].
    rewrite add_to_lookup, decide_True by done. rewrite fold_add_lookup, Hs.
    case_decide; simpl; f_equal; set_solver. }
  split; [rewrite Hc; eauto|]. intros v. unfold all_registry at 1. rewrite Hc. simpl.
  unfold connect. cbn [connection_info]. rewrite lookup_insert_is_Some', Hiff. set_solver.
Qed.

Lemma disconnect_all_inv (w : ws) (m : manager) : all_inv m -> all_inv (disconnect w m).
Proof.
  intros Hinv. pose proof (all_inv_lookup m Hinv) as Hs. destruct Hinv as [_ Hiff].
  set (s := all_registry m) in *.
  unfold disconnect. destruct (connection_info m !! w) as [cs|] eqn:Hi.
  - unfold all_inv, all_registry. cbn [active_connections connection_info].
    rewrite discard_lookup, decide_True by done. rewrite fold_discard_lookup, Hs.
    split; [case_decide; simpl; eauto|]. intros v.
    rewrite lookup_delete_is_Some, Hiff. case_decide; simpl; set_solver.
  - split; [rewrite Hs; eauto|exact Hiff].
Qed.

Lemma subscribe_all_inv (w : ws) (chs : list string) (m : manager) :
  all_inv m -> all_inv (handle_subscribe w chs m).
Proof.
  intros Hinv. pose proof (all_inv_lookup m Hinv) as Hs. destruct Hinv as [_ Hiff].
  set (s := all_registry m) in *.
  unfold handle_subscribe. destruct (connection_info m !! w) as [current|] eqn:Hi;
    [|split; [rewrite Hs; eauto|exact Hiff]].
  assert (Hw : w ∈ s) by (apply Hiff; rewrite Hi; eauto).
  destruct (subscribe_fold w chs (active_connections m) (list_to_set current)) as [H1 _].
  destruct (fold_left (subscribe_step w) chs (active_connections m, list_to_set current))
    as [ac cur]. cbn [fst] in H1.
  unfold all_inv, all_registry, set_registries. cbn [active_connections connection_info].
  rewrite H1, Hs. split; [case_decide; simpl; eauto|]. intros v.
  rewrite lookup_insert_is_Some', Hiff. case_decide; simpl; set_solver.
Qed.

Lemma unsubscribe_all_inv (w : ws) (chs : list string) (m : manager) :
  "all" ∉ chs -> all_inv m -> all_inv (handle_unsubscribe w chs m).
Proof.
  intros Hna Hinv. pose proof (all_inv_lookup m Hinv) as Hs. destruct Hinv as [_ Hiff].
  set (s := all_registry m) in *.
  unfold handle_unsubscribe. destruct (connection_info m !! w) as [current|] eqn:Hi;
    [|split; [rewrite Hs; eauto|exact Hiff]].
  assert (Hw : w ∈ s) by (apply Hiff; rewrite Hi; eauto).
  destruct (unsubscribe_fold w chs (active_connections m) (list_to_set current)) as [H1 _].
  destruct (fold_left (unsubscribe_step w) chs (active_connections m, list_to_set current))
    as [ac cur]. cbn [fst] in H1.
  unfold all_inv, all_registry, set_registries. cbn [active_connections connection_info].
  rewrite H1, decide_False by exact Hna. rewrite Hs. split; [eauto|]. intros v.
  rewrite lookup_insert_is_Some', Hiff. simpl. set_solver.
Qed.

Lemma fold_disconnect_all_inv :
  forall (l : list ws) (m : manager),
  all_inv m -> all_inv (fold_left (fun m' c => disconnect c m') l m).
Proof.
  induction l as [|c l IH]; intros m Hinv; simpl; [exact Hinv|].
  apply IH. apply disconnect_all_inv. exact Hinv.
Qed.

Lemma broadcast_all_inv (msg : message) (channel : string) (fails : ws -> bool) (m : manager) :
  all_inv m -> all_inv (_broadcast_internal msg channel fails m).
Proof.
  intros Hinv. unfold _broadcast_internal.
  destruct (active_connections m !! channel) as [conns|]; [|exact Hinv].
  destruct (send_loop msg fails (elements conns) m ∅) as (Ha & Hi & _ & _).
  destruct (fold_left (send_one msg fails) (elements conns) (m, ∅)) as [m1 D].
  cbn [fst] in Ha, Hi. apply fold_disconnect_all_inv.
  unfold all_inv, all_registry in *. rewrite Ha, Hi. exact Hinv.
Qed.

(** Connected and registered on ["all"] coincide along any run in which no
    subscriber unsubscribes from ["all"]. *)
Lemma run_ops_all_inv :
  forall (ops : list op) (m : manager),
  keeps_all ops = true -> all_inv m -> all_inv (run_ops ops m).
Proof.
  unfold run_ops. induction ops as [|o ops IH]; intros m Hk Hinv; simpl in *; [exact Hinv|].
  apply andb_prop in Hk as [Ho Hr]. apply IH; [exact Hr|].
  destruct o; simpl in *.
  - apply connect_all_inv. exact Hinv.
  - apply disconnect_all_inv. exact Hinv.
  - apply subscribe_all_inv. exact Hinv.
  - apply negb_true_iff, bool_decide_eq_false_1 in Ho.
    apply unsubscribe_all_inv; [exact Ho|exact Hinv].
  - apply broadcast_all_inv. exact Hinv.
Qed.

(** C7. Broadcast isolation: in a state whose registrations are backed by the
    connection info (as every state reached by the endpoint is, see
    [run_ops_wf]), one dispatch of [msg] on [channel] delivers it to every
    registered connection whose send succeeds, whatever happens to the
    others, and removes every connection whose send raises from every
    registry, ["all"] included. *)
Theorem broadcast_isolation (m : manager) (msg : message) (channel : string)
    (fails : ws -> bool) (conns : gset ws) :
  registries_wf m ->
  active_connections m !! channel = Some conns ->
  (forall w, w ∈ conns -> fails w = false ->
     (w, msg) ∈ outbox (_broadcast_internal msg channel fails m)) /\
  (forall w, w ∈ conns -> fails w = true ->
     forall ch s, active_connections (_broadcast_internal msg channel fails m) !! ch = Some s ->
     w ∉ s).
Proof.
  intros Hwf Hch. split.
  - intros w Hw Hf. exact (broadcast_delivers m msg channel fails conns w Hch Hw Hf).
  - intros w Hw Hf. exact (broadcast_removes_failed m msg channel fails conns w Hwf Hch Hw Hf).
Qed.

Lemma broadcast_isolation_witness :
  let r := _broadcast_internal "event" "sync_updates" Scenarios.second_fails
             Scenarios.three_subscribers in
  (1%nat, "event") ∈ outbox r /\ (3%nat, "event") ∈ outbox r /\
  (forall ch s, active_connections r !! ch = Some s -> 2%nat ∉ s).
Proof.
  intros r.
  destruct (broadcast_isolation Scenarios.three_subscribers "event" "sync_updates"
              Scenarios.second_fails ({[1%nat; 2%nat; 3%nat]} : gset ws)) as [Hd Hr].
  - apply run_ops_wf; [exact init_wf|vm_compute; reflexivity].
  - vm_compute. reflexivity.
  - split; [|split].
    + apply Hd; [vm_compute; reflexivity|reflexivity].
    + apply Hd; [vm_compute; reflexivity|reflexivity].
    + apply Hr; [vm_compute; reflexivity|reflexivity].
Defined.

(** C10. [connect] puts every subscriber in the ["all"] registry and
    [disconnect] takes it out, but [_handle_unsubscribe] also discards it
    from ["all"] when asked to: a subscriber that sent an unsubscribe
    message for ["all"] is still connected, yet it is no longer in the
    ["all"] registry, and a dispatch on ["all"] in which no send fails does
    not reach it. *)
Lemma all_broadcast_counterexample :
  connection_info Scenarios.left_all !! 1%nat = Some ["sync_updates"] /\
  (1%nat ∉ all_registry Scenarios.left_all) /\
  (1%nat, "event") ∉ outbox (_broadcast_internal "event" "all" (fun _ => false) Scenarios.left_all).
Proof.
  split; [vm_compute; reflexivity|split].
  - intros H. apply (bool_decide_eq_true_2 _) in H. vm_compute in H. discriminate.
  - intros H. apply (bool_decide_eq_true_2 _) in H. vm_compute in H. discriminate.
Qed.

(** In any state reached from [init], [connect] registers the
    subscriber on ["all"] whatever it asked for, and on every requested
    channel that exists. Requested names outside the fixed channel set create
    no registry: after [connect] the registry keys are still those of [init].
    As long as no subscriber has unsubscribed from ["all"], a dispatch on
    ["all"] reaches every connected subscriber whose send does not fail. *)
Theorem connect_registers_all (ops : list op) (w : ws) (chs : list string) :
  let m := run_ops ops init in
  w ∈ all_registry (connect w chs m) /\
  (forall ch, is_Some (active_connections (connect w chs m) !! ch) <->
              is_Some (active_connections init !! ch)) /\
  (forall ch s, ch ∈ chs -> active_connections (connect w chs m) !! ch = Some s -> w ∈ s) /\
  (keeps_all ops = true ->
   forall msg fails v, is_Some (connection_info m !! v) -> fails v = false ->
   (v, msg) ∈ outbox (_broadcast_internal msg "all" fails m)).
Proof.
  intros m.
  assert (Hall : is_Some (active_connections m !! "all")).
  { apply run_ops_keys. eexists. vm_compute. reflexivity. }
  split; [|split; [|split]].
  - destruct Hall as [s Hs]. unfold all_registry, connect. cbn [active_connections].
    rewrite add_to_lookup, decide_True by done. rewrite fold_add_lookup, Hs.
    case_decide; simpl; set_solver.
  - intros ch. unfold connect. cbn [active_connections].
    rewrite add_to_is_Some, fold_add_is_Some. apply run_ops_keys.
  - intros ch s Hch. unfold connect. cbn [active_connections].
    rewrite add_to_lookup, fold_add_lookup.
    destruct (decide (ch ∈ chs)) as [_|]; [|contradiction].
    destruct (active_connections m !! ch); [|case_decide; discriminate].
    case_decide; simpl; intros Hs; injection Hs as <-; set_solver.
  - intros Hk msg fails v Hv Hf.
    pose proof (run_ops_all_inv ops init Hk init_all_inv) as Hinv.
    fold m in Hinv.
    apply (broadcast_delivers m msg "all" fails (all_registry m) v);
      [exact (all_inv_lookup m Hinv)|apply (proj2 Hinv); exact Hv|exact Hf].
Qed.

Lemma connect_registers_all_witness :
  let ops := [OConnect 1 ["sync_updates"]; OSubscribe 1 ["order_updates"]] in
  keeps_all ops = true /\
  2%nat ∈ all_registry (connect 2 ["no_such_channel"; "product_updates"] (run_ops ops init)) /\
  (1%nat, "event") ∈ outbox (_broadcast_internal "event" "all" (fun _ => false) (run_ops ops init)).
Proof.
  intros ops.
  destruct (connect_registers_all ops 2 ["no_such_channel"; "product_updates"])
    as (Ha & _ & _ & Hb).
  split; [reflexivity|split; [exact Ha|]].
  apply Hb; [reflexivity|vm_compute; eexists; reflexivity|reflexivity].
Defined.

End BroadcasterProofs.

(* ===================================================================== *)
(** * Further properties of the connection manager *)

Module BroadcasterExtra.
Import Broadcaster BroadcasterProofs.

Lemma send_loop_stats (msg : message) (fails : ws -> bool) :
  forall (l : list ws) (m : manager) (D : gset ws),
  let r := fold_left (send_one msg fails) l (m, D) in
  messages_sent r.1 = messages_sent m + Z.of_nat (length (List.filter (fun c => negb (fails c)) l)) /\
  errors r.1 = errors m + Z.of_nat (length (List.filter fails l)) /\
  total_connections r.1 = total_connections m /\
  current_connections r.1 = current_connections m.
Proof.
  induction l as [|a l IH]; intros m D; simpl; [repeat split; lia|].
  destruct (fails a) eqn:Fa; simpl;
    match goal with
    | |- context [fold_left _ l (?m', ?D')] => destruct (IH m' D') as (Hs & He & Ht & Hc)
    end; simpl in *; rewrite Hs, He, Ht, Hc; repeat split; lia.
Qed.

Lemma disconnect_stats (w : ws) (m : manager) :
  messages_sent (disconnect w m) = messages_sent m /\ errors (disconnect w m) = errors m /\
  total_connections (disconnect w m) = total_connections m.
Proof. unfold disconnect. destruct (connection_info m !! w); repeat split. Qed.

Lemma fold_disconnect_stats :
  forall (l : list ws) (m : manager),
  let m' := fold_left (fun m' c => disconnect c m') l m in
  messages_sent m' = messages_sent m /\ errors m' = errors m /\
  total_connections m' = total_connections m.
Proof.
  induction l as [|c l IH]; intros m; simpl; [repeat split|].
  destruct (IH (disconnect c m)) as (H1 & H2 & H3).
  destruct (disconnect_stats c m) as (H1' & H2' & H3').
  rewrite H1, H2, H3, H1', H2', H3'. repeat split.
Qed.

Lemma filter_negb_length {A} (f : A -> bool) (l : list A) :
  (length (List.filter (fun x => negb (f x)) l) + length (List.filter f l))%nat = length l.
Proof. induction l as [|x l IH]; simpl; [reflexivity|]. destruct (f x); simpl; lia. Qed.

Lemma disconnect_current (w : ws) (m : manager) :
  current_connections m = Z.of_nat (size (connection_info m)) ->
  current_connections (disconnect w m) = Z.of_nat (size (connection_info (disconnect w m))).
Proof.
  unfold disconnect. destruct (connection_info m !! w) as [cs|] eqn:Hi; [|done].
  simpl. intros H. rewrite map_size_delete_Some by eauto.
  pose proof (map_size_ne_0_lookup_2 (connection_info m) w (mk_is_Some _ _ Hi)). lia.
Qed.

Lemma fold_disconnect_current :
  forall (l : list ws) (m : manager),
  current_connections m = Z.of_nat (size (connection_info m)) ->
  let m' := fold_left (fun m' c => disconnect c m') l m in
  current_connections m' = Z.of_nat (size (connection_info m')).
Proof.
  induction l as [|c l IH]; intros m H; simpl; [exact H|].
  apply IH, disconnect_current, H.
Qed.

Lemma step_current (m : manager) (o : op) :
  current_connections m = Z.of_nat (size (connection_info m)) ->
  match o with OConnect w _ => connection_info m !! w = None | _ => True end ->
  current_connections (step m o) = Z.of_nat (size (connection_info (step m o))).
Proof.
  intros H Ho. destruct o as [w chs|w|w chs|w chs|msg ch fails]; simpl.
  - rewrite map_size_insert_None by exact Ho. lia.
  - apply disconnect_current, H.
  - unfold handle_subscribe. destruct (connection_info m !! w) as [cs|] eqn:Hi; [|exact H].
    destruct (fold_left (subscribe_step w) chs (active_connections m, list_to_set cs)).
    simpl. rewrite map_size_insert_Some by eauto. exact H.
  - unfold handle_unsubscribe. destruct (connection_info m !! w) as [cs|] eqn:Hi; [|exact H].
    destruct (fold_left (unsubscribe_step w) chs (active_connections m, list_to_set cs)).
    simpl. rewrite map_size_insert_Some by eauto. exact H.
  - unfold _broadcast_internal. destruct (active_connections m !! ch) as [conns|]; [|exact H].
    destruct (send_loop msg fails (elements conns) m ∅) as (_ & Hi & _ & _).
    destruct (send_loop_stats msg fails (elements conns) m ∅) as (_ & _ & _ & Hc).
    destruct (fold_left (send_one msg fails) (elements conns) (m, ∅)) as [m1 D].
    cbn [fst] in Hi, Hc. apply fold_disconnect_current. rewrite Hi, Hc. exact H.
Qed.

Lemma run_ops_current :
  forall (ops : list op) (m : manager),
  connects_fresh ops m = true ->
  current_connections m = Z.of_nat (size (connection_info m)) ->
  current_connections (run_ops ops m) = Z.of_nat (size (connection_info (run_ops ops m))).
Proof.
  unfold run_ops. induction ops as [|o ops IH]; intros m Hf H; simpl in *; [exact H|].
  apply andb_prop in Hf as [Ho Hr]. apply IH; [exact Hr|].
  apply step_current; [exact H|].
  destruct o; try exact I. apply bool_decide_eq_true_1 in Ho. exact Ho.
Qed.

(** X11. The connection counts of [get_connection_stats]: when every connect is
    of a connection not yet connected and no subscriber unsubscribes from
    ["all"], [stats["current_connections"]] is the number of connections in
    [connection_info], and it equals [total_active_connections], the size of
    the ["all"] registry. *)
Theorem connection_counts (ops : list op)
    (Hfresh : connects_fresh ops init = true) (Hall : keeps_all ops = true) :
  let m := run_ops ops init in
  current_connections m = Z.of_nat (size (connection_info m)) /\
  Z.of_nat (size (all_registry m)) = current_connections m.
Proof.
  simpl. assert (Hc : current_connections (run_ops ops init) =
                      Z.of_nat (size (connection_info (run_ops ops init))))
    by (apply run_ops_current; [exact Hfresh|reflexivity]).
  split; [exact Hc|]. rewrite Hc.
  destruct (run_ops_all_inv ops init Hall init_all_inv) as [_ Hiff].
  assert (all_registry (run_ops ops init) = dom (connection_info (run_ops ops init))) as ->.
  { apply set_eq. intros v. rewrite elem_of_dom. symmetry. apply Hiff. }
  rewrite size_dom. reflexivity.
Qed.

Lemma connection_counts_witness :
  connects_fresh [OConnect 1 ["sync_updates"]; OConnect 2 ["all"]; ODisconnect 1;
                  ODisconnect 1] init = true /\
  keeps_all [OConnect 1 ["sync_updates"]; OConnect 2 ["all"]; ODisconnect 1;
             ODisconnect 1] = true /\
  (let m := run_ops [OConnect 1 ["sync_updates"]; OConnect 2 ["all"]; ODisconnect 1;
                     ODisconnect 1] init in
   current_connections m = Z.of_nat (size (connection_info m)) /\
   Z.of_nat (size (all_registry m)) = current_connections m).
Proof.
  split; [vm_compute; reflexivity|split; [vm_compute; reflexivity|]].
  apply connection_counts; vm_compute; reflexivity.
Defined.

(** X12. [_broadcast_internal] on an unknown channel changes nothing. On a
    registered channel, every registered connection counts once: the
    successful sends add to [messages_sent], the failing ones to [errors],
    so the two grow together by the size of the registry; the connection
    total is unchanged. *)
Theorem broadcast_stats (m : manager) (msg : message) (channel : string)
    (fails : ws -> bool) :
  match active_connections m !! channel with
  | None => _broadcast_internal msg channel fails m = m
  | Some conns =>
      let m' := _broadcast_internal msg channel fails m in
      messages_sent m' =
        messages_sent m + Z.of_nat (length (List.filter (fun c => negb (fails c)) (elements conns))) /\
      errors m' = errors m + Z.of_nat (length (List.filter fails (elements conns))) /\
      messages_sent m' + errors m' = messages_sent m + errors m + Z.of_nat (size conns) /\
      total_connections m' = total_connections m
  end.
Proof.
  unfold _broadcast_internal. destruct (active_connections m !! channel) as [conns|];
    [|reflexivity].
  destruct (send_loop_stats msg fails (elements conns) m ∅) as (Hs & He & Ht & _).
  pose proof (filter_negb_length fails (elements conns)) as Hl.
  destruct (fold_left (send_one msg fails) (elements conns) (m, ∅)) as [m1 D].
  cbn [fst] in Hs, He, Ht.
  destruct (fold_disconnect_stats (elements D) m1) as (Hs' & He' & Ht').
  rewrite Hs', He', Ht', Hs, He, Ht.
  assert (size conns = length (elements conns)) as -> by reflexivity.
  repeat split; lia.
Qed.

(** X13. [disconnect] removes the connection's info and leaves the other
    connections' info alone; a second [disconnect] of the same connection
    changes nothing, so [current_connections] is decremented once. *)
Theorem disconnect_idempotent (w : ws) (m : manager) :
  connection_info (disconnect w m) !! w = None /\
  (forall v, v <> w -> connection_info (disconnect w m) !! v = connection_info m !! v) /\
  disconnect w (disconnect w m) = disconnect w m.
Proof.
  unfold disconnect. destruct (connection_info m !! w) as [cs|] eqn:Hi; simpl.
  - rewrite lookup_delete_eq. split; [reflexivity|split; [|reflexivity]].
    intros v Hv. apply lookup_delete_ne. congruence.
  - rewrite Hi. split; [reflexivity|split; reflexivity].
Qed.

Lemma subscribe_fold_cur (w : ws) :
  forall (chs : list string) (ac : gmap string (gset ws)) (cur : gset string) (ch : string),
  ch ∈ (fold_left (subscribe_step w) chs (ac, cur)).2 <->
  ch ∈ cur \/ (ch ∈ chs /\ is_Some (ac !! ch)).
Proof.
  induction chs as [|a chs IH]; intros ac cur ch; cbn [fold_left].
  - simpl. split; [auto|]. intros [H|[H _]]; [exact H|inversion H].
  - assert (subscribe_step w (ac, cur) a =
            if decide (is_Some (ac !! a)) then (add_to a w ac, cur ∪ {[a]}) else (ac, cur))
      as -> by reflexivity.
    destruct (decide (is_Some (ac !! a))) as [Hk|Hk]; rewrite IH.
    + rewrite add_to_is_Some, elem_of_union, elem_of_singleton, elem_of_cons.
      split; [intros [[H| ->]|[Hc Hs]]; auto|intros [H|[[->|Hc] Hs]]; auto].
    + rewrite elem_of_cons.
      split; [intros [H|[Hc Hs]]; auto|intros [H|[[->|Hc] Hs]]; auto; contradiction].
Qed.

Lemma unsubscribe_fold_cur (w : ws) :
  forall (chs : list string) (ac : gmap string (gset ws)) (cur : gset string) (ch : string),
  ch ∈ (fold_left (unsubscribe_step w) chs (ac, cur)).2 <->
  ch ∈ cur /\ ~ (ch ∈ chs /\ is_Some (ac !! ch)).
Proof.
  induction chs as [|a chs IH]; intros ac cur ch; cbn [fold_left].
  - simpl. split; [intros H; split; [exact H|intros [Hc _]; inversion Hc]|intros [H _]; exact H].
  - assert (unsubscribe_step w (ac, cur) a =
            if decide (is_Some (ac !! a)) then (discard a w ac, cur ∖ {[a]}) else (ac, cur))
      as -> by reflexivity.
    destruct (decide (is_Some (ac !! a))) as [Hk|Hk]; rewrite IH.
    + rewrite discard_is_Some, elem_of_difference, elem_of_singleton, elem_of_cons.
      split.
      * intros [[H Hn] Hn']. split; [exact H|]. intros [[->|Hc] Hs]; auto.
      * intros [H Hn]. split; [split; [exact H|]|].
        -- intros ->. apply Hn. auto.
        -- intros [Hc Hs]. apply Hn. auto.
    + rewrite elem_of_cons.
      split.
      * intros [H Hn]. split; [exact H|]. intros [[->|Hc] Hs]; [contradiction|auto].
      * intros [H Hn]. split; [exact H|]. intros [Hc Hs]. apply Hn. auto.
Qed.

(** X14. A subscribe message followed by an unsubscribe message naming the same
    channels, from a connected subscriber: on each named channel the
    subscriber is no longer registered (also when it was registered before
    the subscribe), the other registries are unchanged, the subscriber's
    channel list keeps exactly its former channels that were not named or
    are unknown, and the other connections' info is unchanged. *)
Theorem subscribe_then_unsubscribe (w : ws) (chs : list string) (m : manager)
    (Hw : is_Some (connection_info m !! w)) :
  let m' := handle_unsubscribe w chs (handle_subscribe w chs m) in
  (forall ch, active_connections m' !! ch =
     if decide (ch ∈ chs) then (fun s => s ∖ {[w]}) <$> active_connections m !! ch
     else active_connections m !! ch) /\
  (exists cs cs', connection_info m !! w = Some cs /\ connection_info m' !! w = Some cs' /\
     forall ch, ch ∈ cs' <-> ch ∈ cs /\ ~ (ch ∈ chs /\ is_Some (active_connections m !! ch))) /\
  (forall v, v <> w -> connection_info m' !! v = connection_info m !! v).
Proof.
  destruct Hw as [cs Hcs]. simpl.
  unfold handle_subscribe. rewrite Hcs.
  destruct (subscribe_fold w chs (active_connections m) (list_to_set cs)) as [H1 _].
  pose proof (subscribe_fold_cur w chs (active_connections m) (list_to_set cs)) as H2.
  destruct (fold_left (subscribe_step w) chs (active_connections m, list_to_set cs))
    as [ac cur]. cbn [fst snd] in H1, H2.
  unfold handle_unsubscribe, set_registries. cbn [connection_info active_connections].
  rewrite lookup_insert_eq.
  destruct (unsubscribe_fold w chs ac (list_to_set (elements cur))) as [H3 _].
  pose proof (unsubscribe_fold_cur w chs ac (list_to_set (elements cur))) as H4.
  destruct (fold_left (unsubscribe_step w) chs (ac, list_to_set (elements cur)))
    as [ac2 cur2]. cbn [fst snd] in H3, H4. cbn [connection_info active_connections].
  split; [|split].
  - intros ch. rewrite H3, H1. case_decide; [|reflexivity].
    destruct (active_connections m !! ch); simpl; [|reflexivity]. f_equal. set_solver.
  - exists cs, (elements cur2). split; [reflexivity|split; [apply lookup_insert_eq|]].
    intros ch. rewrite elem_of_elements, H4, elem_of_list_to_set, elem_of_elements, H2,
      elem_of_list_to_set.
    assert (is_Some (ac !! ch) <-> is_Some (active_connections m !! ch)) as Hk.
    { rewrite H1. case_decide; [apply fmap_is_Some|reflexivity]. }
    rewrite Hk. tauto.
  - intros v Hv. rewrite !lookup_insert_ne by congruence. reflexivity.
Qed.

Lemma subscribe_then_unsubscribe_witness :
  is_Some (connection_info Scenarios.three_subscribers !! 1%nat) /\
  (let m' := handle_unsubscribe 1 ["product_updates"; "sync_updates"]
               (handle_subscribe 1 ["product_updates"; "sync_updates"]
                  Scenarios.three_subscribers) in
  (forall ch, active_connections m' !! ch =
     if decide (ch ∈ ["product_updates"; "sync_updates"])
     then (fun s => s ∖ {[1%nat]}) <$> active_connections Scenarios.three_subscribers !! ch
     else active_connections Scenarios.three_subscribers !! ch) /\
  (exists cs cs', connection_info Scenarios.three_subscribers !! 1%nat = Some cs /\
     connection_info m' !! 1%nat = Some cs' /\
     forall ch, ch ∈ cs' <-> ch ∈ cs /\
       ~ (ch ∈ ["product_updates"; "sync_updates"] /\
          is_Some (active_connections Scenarios.three_subscribers !! ch))) /\
  (forall v, v <> 1%nat -> connection_info m' !! v =
                           connection_info Scenarios.three_subscribers !! v)).
Proof.
  split; [eexists; vm_compute; reflexivity|].
  apply subscribe_then_unsubscribe. eexists; vm_compute; reflexivity.
Defined.

Lemma lstrip_ws_space (p s : string) : all_space p = true -> lstrip_ws (p +:+ s) = lstrip_ws s.
Proof.
  induction p as [|c p IH]; simpl; [reflexivity|].
  intros H. apply andb_prop in H as [Hc Hp]. rewrite Hc. apply IH, Hp.
Qed.

Lemma lstrip_ws_all (q : string) : all_space q = true -> lstrip_ws q = EmptyString.
Proof.
  induction q as [|c q IH]; simpl; [reflexivity|].
  intros H. apply andb_prop in H as [Hc Hq]. rewrite Hc. apply IH, Hq.
Qed.

Lemma rstrip_ws_space (q : string) : all_space q = true -> rstrip_ws q = EmptyString.
Proof.
  induction q as [|c q IH]; simpl; [reflexivity|].
  intros H. apply andb_prop in H as [Hc Hq]. rewrite IH by exact Hq. rewrite Hc. reflexivity.
Qed.

Lemma rstrip_ws_app (s q : string) : all_space q = true -> rstrip_ws (s +:+ q) = rstrip_ws s.
Proof.
  intros Hq. induction s as [|c s IH]; simpl; [apply rstrip_ws_space, Hq|].
  rewrite IH. reflexivity.
Qed.

Lemma lstrip_ws_app (c q : string) :
  lstrip_ws (c +:+ q) = match lstrip_ws c with EmptyString => lstrip_ws q | r => r +:+ q end.
Proof.
  induction c as [|x c IH]; simpl; [reflexivity|].
  destruct (is_py_space x); [exact IH|reflexivity].
Qed.

Lemma py_strip_padded (p c q : string) :
  all_space p = true -> all_space q = true -> py_strip c = c ->
  py_strip (p +:+ (c +:+ q)) = c.
Proof.
  intros Hp Hq Hc. unfold py_strip in *. rewrite lstrip_ws_space by exact Hp.
  rewrite lstrip_ws_app. destruct (lstrip_ws c) as [|x r] eqn:E.
  - rewrite lstrip_ws_all by exact Hq. exact Hc.
  - rewrite rstrip_ws_app by exact Hq. exact Hc.
Qed.

Lemma no_comma_app (a b : string) : no_comma (a +:+ b) = no_comma a && no_comma b.
Proof. induction a as [|c a IH]; simpl; [reflexivity|]. rewrite IH, andb_assoc. reflexivity. Qed.

Lemma all_space_no_comma (p : string) : all_space p = true -> no_comma p = true.
Proof.
  induction p as [|c p IH]; simpl; [reflexivity|].
  intros H. apply andb_prop in H as [Hc Hp]. rewrite IH by exact Hp.
  destruct (Ascii.eqb c ","%char) eqn:E; [|reflexivity].
  apply Ascii.eqb_eq in E. subst c. discriminate.
Qed.

Lemma split_comma_single (c : string) : no_comma c = true -> split_comma c = [c].
Proof.
  induction c as [|x c IH]; simpl; [reflexivity|].
  intros H. apply andb_prop in H as [Hx Hc]. apply negb_true_iff in Hx. rewrite Hx, IH by exact Hc.
  reflexivity.
Qed.

Lemma split_comma_sep (c r : string) :
  no_comma c = true -> split_comma (c +:+ String ","%char r) = c :: split_comma r.
Proof.
  induction c as [|x c IH]; simpl; [reflexivity|].
  intros H. apply andb_prop in H as [Hx Hc]. apply negb_true_iff in Hx. rewrite Hx, IH by exact Hc.
  reflexivity.
Qed.

(** X15. The channel list of the WebSocket endpoint: a [channels] query made of
    comma-free channel names without surrounding whitespace, joined by
    commas with any whitespace around each name (such as
    ["sync_updates, product_updates"]), parses back to exactly those names,
    in order. *)
Theorem parse_channels_padded (cs : list string) (pads : list (string * string))
    (Hne : cs <> []) (Hlen : length pads = length cs)
    (Hcs : forallb (fun c => no_comma c && String.eqb (py_strip c) c) cs = true)
    (Hpads : forallb (fun pq => all_space pq.1 && all_space pq.2) pads = true) :
  parse_channels
    (String.concat "," (zip_with (fun c pq => pq.1 +:+ (c +:+ pq.2)) cs pads)) = cs.
Proof.
  revert pads Hne Hlen Hcs Hpads. induction cs as [|c cs IH]; intros pads Hne Hlen Hcs Hpads;
    [contradiction|].
  destruct pads as [|[p q] pads]; [discriminate|]. simpl in Hlen, Hcs, Hpads.
  apply andb_prop in Hcs as [Hc Hcs]. apply andb_prop in Hc as [Hnc Hsc].
  apply String.eqb_eq in Hsc.
  apply andb_prop in Hpads as [Hpq Hpads]. apply andb_prop in Hpq as [Hp Hq]. simpl in Hp, Hq.
  assert (Hpiece : no_comma (p +:+ (c +:+ q)) = true).
  { rewrite !no_comma_app, Hnc, !all_space_no_comma by assumption. reflexivity. }
  destruct cs as [|c' cs].
  - destruct pads; [|discriminate]. simpl.
    unfold parse_channels. rewrite split_comma_single by exact Hpiece. simpl.
    rewrite py_strip_padded by assumption. reflexivity.
  - destruct pads as [|pq' pads]; [discriminate|].
    cbn [zip_with]. change (String.concat "," (?x :: ?y :: ?l))
      with (x +:+ String ","%char (String.concat "," (y :: l))).
    unfold parse_channels. rewrite split_comma_sep by exact Hpiece. cbn [map].
    rewrite py_strip_padded by assumption. f_equal.
    apply (IH (pq' :: pads)); [discriminate|simpl in *; lia|exact Hcs|exact Hpads].
Qed.

Lemma parse_channels_padded_witness :
  parse_channels
    (String.concat "," (zip_with (fun c pq => pq.1 +:+ (c +:+ pq.2))
                          ["sync_updates"; "product_updates"] [(""," "); (" ","")]))
    = ["sync_updates"; "product_updates"].
Proof.
  apply parse_channels_padded; [discriminate|reflexivity|vm_compute; reflexivity
                               |vm_compute; reflexivity].
Defined.

(** X16. The channels of [get_connection_stats]'s [active_by_channel] never
    change: whatever connections, subscribe and unsubscribe messages and
    broadcasts happen, the known channels are exactly the five created in
    [ConnectionManager.__init__]; a request for any other channel never
    creates it. *)
Theorem channels_fixed (ops : list op) (ch : string) :
  is_Some (active_connections (run_ops ops init) !! ch) <->
  ch ∈ ["sync_updates"; "product_updates"; "order_updates"; "system_notifications"; "all"].
Proof.
  rewrite run_ops_keys. unfold init. cbn [active_connections list_to_map fold_right fst snd].
  rewrite !lookup_insert_is_Some', lookup_empty, !elem_of_cons, elem_of_nil.
  split; intros H; repeat destruct H as [H|H]; subst; auto 7;
    try (destruct H as [x Hx]; discriminate); inversion H.
Qed.

End BroadcasterExtra.
